(** * Grokker: the embedding-indexed chunk store, shallowly embedded

    Model of the [grokker] package (Document, Chunk, Grokker and the
    operations AddDocument, UpdateDocument, RemoveDocument, GC,
    UpdateEmbeddings, CreateEmbeddings, SimilarChunks, Answer, Save, Load).

    Modelling conventions:
    - a Go [string] is a byte sequence; it is modelled as [String.string],
      whose characters are 8-bit [ascii] values, so [String.length] is Go's
      [len];
    - a [float64] is abstracted by [float64] below: its finite values are
      kept as opaque data (no arithmetic is needed here) and the non-finite
      values are distinguished because [encoding/json] refuses them;
    - similarity scores are abstracted to [Z]: a totally ordered score type
      (the NaN score of a zero vector is out of this model);
    - the file system and the two OpenAI clients are arguments of the
      operations (pure functions of their inputs);
    - an operation that fails returns [None] (or an [ok] flag [false]),
      whether the Go code returns an error through [Ck]/[Return] or aborts. *)

From Stdlib Require Import List String Ascii ZArith Lia Bool.
From Stdlib Require Import Permutation Sorted.
Import ListNotations.
Local Open Scope Z_scope.

(** ** Data model *)

Inductive float64 : Type :=
| Finite (m e : Z)          (* the finite value m * 2^e *)
| PosInf
| NegInf
| NaN.

(** [type Document struct { Path string }] *)
Record Document : Type := mkDocument { Path : string }.

(** [type Chunk struct { Document *Document; Text string; Embedding []float64 }].
    The pointer is modelled by the pointed-to document (only its [Path] is
    ever read). *)
Record Chunk : Type := mkChunk {
  ChunkDoc : Document;
  Text : string;
  Embedding : list float64
}.

(** [type Grokker struct]: the exported, serialized fields.  The two
    unexported client handles are arguments of the operations instead. *)
Record Grokker : Type := mkGrokker {
  Root : string;
  Documents : list Document;
  Chunks : list Chunk;
  MaxChunkSize : Z;
  CharsPerToken : float64
}.

Definition set_Documents (g : Grokker) (ds : list Document) : Grokker :=
  mkGrokker g.(Root) ds g.(Chunks) g.(MaxChunkSize) g.(CharsPerToken).

Definition set_Chunks (g : Grokker) (cs : list Chunk) : Grokker :=
  mkGrokker g.(Root) g.(Documents) cs g.(MaxChunkSize) g.(CharsPerToken).

(** [New]: [MaxChunkSize: 4096 * 4.0], [CharsPerToken: 3.5]. *)
Definition New : Grokker :=
  mkGrokker EmptyString [] [] 16384 (Finite 7 (-1)).

(** ** Environment: file system and embedding client *)

(** Result of [os.Stat]: the file is missing ([os.IsNotExist]), another
    error, or its modification time. *)
Inductive StatResult : Type :=
| NotExist
| StatError
| ModTime (t : Z).

Record FS : Type := mkFS {
  stat : string -> StatResult;
  readFile : string -> option string
}.

(** One [CreateEmbeddings] request of the OpenAI client: a batch of texts
    in, the [res.Data] embeddings out (in the order of [res.Data]), or an
    error. *)
Definition EmbedClient : Type := list string -> option (list (list float64)).

(** ** Chunker: [chunkStrings] *)

Definition nl : ascii := "010"%char.

(** [strings.Split(s, "\n\n")]: cut at the leftmost non-overlapping
    occurrences of the separator; [cur] is the piece being read. *)
Fixpoint split_paragraphs_from (s cur : string) : list string :=
  match s with
  | EmptyString => [cur]
  | String a s' =>
      match s' with
      | String b s'' =>
          if Ascii.eqb a nl && Ascii.eqb b nl
          then cur :: split_paragraphs_from s'' EmptyString
          else split_paragraphs_from s' (String.append cur (String a EmptyString))
      | EmptyString => [String.append cur (String a EmptyString)]
      end
  end.

Definition split_paragraphs (s : string) : list string :=
  split_paragraphs_from s EmptyString.

(** The inner loop of [chunkStrings] on one paragraph:
    [for len(paragraph) > 0 { if len(paragraph) > MaxChunkSize { ... } else { ... } }].
    With [MaxChunkSize <= 0] and a non-empty paragraph the Go loop never ends
    ([= 0]) or panics on the slice bound ([< 0]): [None].  The fuel is the
    paragraph length, enough since each round removes at least one byte. *)
Fixpoint split_paragraph (fuel : nat) (max : Z) (p : string) : option (list string) :=
  match p with
  | EmptyString => Some []
  | _ =>
      match fuel with
      | O => None
      | S fuel' =>
          if Z.of_nat (String.length p) >? max then
            if max <=? 0 then None
            else
              match split_paragraph fuel' max
                      (substring (Z.to_nat max) (String.length p) p) with
              | Some rest => Some (substring 0 (Z.to_nat max) p :: rest)
              | None => None
              end
          else Some [p]
      end
  end.

Fixpoint chunk_paragraphs (max : Z) (ps : list string) : option (list string) :=
  match ps with
  | [] => Some []
  | p :: ps' =>
      match split_paragraph (String.length p) max p, chunk_paragraphs max ps' with
      | Some c1, Some c2 => Some (c1 ++ c2)
      | _, _ => None
      end
  end.

(** [chunkStrings(doc)]: read the file, split on paragraphs, slice long
    paragraphs. *)
Definition chunkStrings (fs : FS) (g : Grokker) (doc : Document) : option (list string) :=
  match fs.(readFile) doc.(Path) with
  | None => None
  | Some txt => chunk_paragraphs g.(MaxChunkSize) (split_paragraphs txt)
  end.

(** ** Embedding client: [CreateEmbeddings] *)

(** [for i := 0; i < len(texts); i += 100 { end := min(i+100, len(texts)); ... }]:
    each round sends [texts[i:end]] and appends [res.Data].  The result is
    the list of requests sent and the embeddings, [None] when a request
    fails ([Ck(err)] panics).  The fuel is [len(texts)]: each round consumes
    at least one text. *)
Fixpoint create_embeddings_loop (fuel : nat) (client : EmbedClient)
    (texts : list string) : list (list string) * option (list (list float64)) :=
  match texts with
  | [] => ([], Some [])
  | _ =>
      match fuel with
      | O => ([], None)
      | S fuel' =>
          let batch := firstn 100 texts in
          match client batch with
          | None => ([batch], None)
          | Some es =>
              let '(reqs, r) := create_embeddings_loop fuel' client (skipn 100 texts) in
              (batch :: reqs,
               match r with Some rest => Some (es ++ rest) | None => None end)
          end
      end
  end.

Definition CreateEmbeddings (client : EmbedClient) (texts : list string)
    : list (list string) * option (list (list float64)) :=
  create_embeddings_loop (List.length texts) client texts.

(** ** Chunk store: [UpdateDocument] *)

(** Removing [oldChunk] (the first old chunk with the text) from [oldChunks]. *)
Fixpoint remove_first_text (t : string) (cs : list Chunk) : list Chunk :=
  match cs with
  | [] => []
  | c :: cs' => if String.eqb c.(Text) t then cs' else c :: remove_first_text t cs'
  end.

Definition has_text (t : string) (cs : list Chunk) : bool :=
  existsb (fun c => String.eqb c.(Text) t) cs.

(** The loop [for _, chunkString := range chunkStrings { ... }]: returns the
    remaining [oldChunks], [newChunkStrings] and [updated]. *)
Fixpoint diff_chunks (oldChunks : list Chunk) (strs newStrs : list string)
    (updated : bool) : list Chunk * list string * bool :=
  match strs with
  | [] => (oldChunks, newStrs, updated)
  | s :: strs' =>
      if has_text s oldChunks
      then diff_chunks (remove_first_text s oldChunks) strs' newStrs updated
      else diff_chunks oldChunks strs' (newStrs ++ [s]) true
  end.

(** [for i, text := range newChunkStrings { ... Embedding: embeddings[i] }];
    an index out of range is a runtime panic: [None]. *)
Fixpoint new_chunks (doc : Document) (texts : list string)
    (es : list (list float64)) : option (list Chunk) :=
  match texts, es with
  | [], _ => Some []
  | t :: ts, e :: es' =>
      match new_chunks doc ts es' with
      | Some cs => Some (mkChunk doc t e :: cs)
      | None => None
      end
  | _ :: _, [] => None
  end.

Definition doc_chunks (path : string) (cs : list Chunk) : list Chunk :=
  filter (fun c => String.eqb c.(ChunkDoc).(Path) path) cs.

(** [UpdateDocument(doc)]: the embedding requests sent, and the new store
    with [updated], or [None] on error (the store is then unchanged: chunks
    are appended only once all embeddings are in). *)
Definition UpdateDocument (client : EmbedClient) (fs : FS) (g : Grokker)
    (doc : Document) : list (list string) * option (Grokker * bool) :=
  match chunkStrings fs g doc with
  | None => ([], None)
  | Some cs =>
      let oldChunks := doc_chunks doc.(Path) g.(Chunks) in
      let '(_, newChunkStrings, updated) := diff_chunks oldChunks cs [] false in
      let '(reqs, r) := CreateEmbeddings client newChunkStrings in
      match r with
      | None => (reqs, None)
      | Some embeddings =>
          match new_chunks doc newChunkStrings embeddings with
          | None => (reqs, None)
          | Some ncs => (reqs, Some (set_Chunks g (g.(Chunks) ++ ncs), updated))
          end
      end
  end.

(** [AddDocument(path)]: the document is appended when no document has the
    path, then updated.  The append stays when the update fails.  The
    boolean is [err == nil]. *)
Definition AddDocument (client : EmbedClient) (fs : FS) (g : Grokker)
    (path : string) : Grokker * bool :=
  let doc := mkDocument path in
  let found := existsb (fun d => String.eqb d.(Path) path) g.(Documents) in
  let g1 := if found then g else set_Documents g (g.(Documents) ++ [doc]) in
  match snd (UpdateDocument client fs g1 doc) with
  | Some (g2, _) => (g2, true)
  | None => (g1, false)
  end.

(** ** [RemoveDocument] on the slice [g.Documents]

    [g.Documents = append(g.Documents[:i], g.Documents[i+1:]...)] shifts the
    tail of the backing array left in place.  A slice is modelled by its
    backing array [arr] and its length [n]; [slice_delete arr n i] is the
    backing array after the statement. *)
Definition slice_delete {A : Type} (arr : list A) (n i : nat) : list A :=
  firstn i arr ++ firstn (n - S i) (skipn (S i) arr) ++ skipn (n - 1) arr.

Fixpoint find_path_index (p : string) (ds : list Document) : option nat :=
  match ds with
  | [] => None
  | d :: ds' =>
      if String.eqb d.(Path) p then Some O
      else match find_path_index p ds' with Some i => Some (S i) | None => None end
  end.

Definition RemoveDocument_slice (arr : list Document) (n : nat) (doc : Document)
    : list Document * nat :=
  match find_path_index doc.(Path) (firstn n arr) with
  | None => (arr, n)
  | Some i => (slice_delete arr n i, (n - 1)%nat)
  end.

(** [RemoveDocument(doc)] on a store whose slice is [g.Documents] itself. *)
Definition RemoveDocument (g : Grokker) (doc : Document) : Grokker :=
  let '(arr, n) := RemoveDocument_slice g.(Documents) (List.length g.(Documents)) doc in
  set_Documents g (firstn n arr).

(** ** [GC] *)

Definition referenced (ds : list Document) (c : Chunk) : bool :=
  existsb (fun d => String.eqb d.(Path) c.(ChunkDoc).(Path)) ds.

Definition GC (g : Grokker) : Grokker :=
  set_Chunks g (filter (referenced g.(Documents)) g.(Chunks)).

(** ** [UpdateEmbeddings]

    [for _, doc := range g.Documents { ... g.RemoveDocument(doc) ... }]: the
    range expression is evaluated once, so the loop reads the elements of
    the ORIGINAL slice, indices [0 .. len-1], from the backing array that
    [RemoveDocument] shifts in place.  The loop state is that backing array
    [arr], the current length [n] of [g.Documents] (so
    [g.Documents = firstn n arr]), the index [i], the store and [update].
    The result is the store, [update] and [err == nil]; on an error the
    mutations made so far stay. *)
Fixpoint update_loop (fuel : nat) (client : EmbedClient) (fs : FS) (lastUpdate : Z)
    (arr : list Document) (n i : nat) (g : Grokker) (update : bool)
    : Grokker * bool * bool :=
  match fuel with
  | O => (g, update, true)
  | S fuel' =>
      match nth_error arr i with
      | None => (g, update, true)
      | Some doc =>
          match fs.(stat) doc.(Path) with
          | NotExist =>
              let '(arr', n') := RemoveDocument_slice arr n doc in
              update_loop fuel' client fs lastUpdate arr' n' (S i)
                (set_Documents g (firstn n' arr')) true
          | StatError => (g, update, false)
          | ModTime t =>
              if t >? lastUpdate then
                match snd (UpdateDocument client fs g doc) with
                | None => (g, update, false)
                | Some (g', updated) =>
                    update_loop fuel' client fs lastUpdate arr n (S i) g'
                      (update || updated)
                end
              else update_loop fuel' client fs lastUpdate arr n (S i) g update
          end
      end
  end.

(** [UpdateEmbeddings(grokfn)]: the modification time of [grokfn] is the
    last update time; the loop is followed by [g.GC()]. *)
Definition UpdateEmbeddings (client : EmbedClient) (fs : FS) (grokfn : string)
    (g : Grokker) : Grokker * bool * bool :=
  match fs.(stat) grokfn with
  | ModTime lastUpdate =>
      let '(g', update, ok) :=
        update_loop (List.length g.(Documents)) client fs lastUpdate
          g.(Documents) (List.length g.(Documents)) O g false in
      if ok then (GC g', update, true) else (g', update, false)
  | _ => (g, false, false)
  end.

(** ** Similarity ranking: [SimilarChunks] *)

(** [type Sim struct { chunk *Chunk; score float64 }] *)
Record Sim : Type := mkSim { sim_chunk : Chunk; sim_score : Z }.

(** [sort.Slice(x, less)]: the library sort, a parameter of the model. *)
Definition SortSlice : Type := forall A : Type, (A -> A -> bool) -> list A -> list A.

(** The contract of [sort.Slice] for a [less] given by a key (the only
    form used here): the result is a permutation of the input in which no
    element is [less] than an element before it.  The Go documentation adds:
    "The sort is not guaranteed to be stable". *)
Definition SortSliceContract (sort_Slice : SortSlice) : Prop :=
  forall (A : Type) (key : A -> Z) (l : list A),
    Permutation (sort_Slice A (fun a b => key a >? key b) l) l /\
    Sorted (fun a b => key b <= key a) (sort_Slice A (fun a b => key a >? key b) l).

(** [SimilarChunks(embedding, K)]; [Similarity] is the cosine similarity,
    a parameter returning the (abstracted) score. *)
Definition SimilarChunks (sort_Slice : SortSlice)
    (Similarity : list float64 -> list float64 -> Z)
    (g : Grokker) (embedding : list float64) (K : Z) : list Chunk :=
  let sims := map (fun c => mkSim c (Similarity embedding c.(Embedding))) g.(Chunks) in
  let sorted := sort_Slice Sim (fun a b => a.(sim_score) >? b.(sim_score)) sims in
  let K := if K =? 0 then Z.of_nat (List.length sorted) else K in
  (* for i := 0; i < K && i < len(sims); i++ *)
  map sim_chunk (firstn (Z.to_nat K) sorted).

(** An implementation that meets [SortSliceContract]: insertion sort as in
    Go's [insertionSort_func] (an element moves left while it is [less]
    than its predecessor; stable). *)
Fixpoint insert_while {A : Type} (skip : A -> bool) (x : A) (l : list A) : list A :=
  match l with
  | [] => [x]
  | y :: l' => if skip y then y :: insert_while skip x l' else x :: l
  end.

Definition insertion_sort : SortSlice :=
  fun A less l => fold_left (fun acc x => insert_while (fun y => negb (less x y)) x acc) l [].

(** Go's [sort.Slice] (Go 1.19 and later): pattern-defeating quicksort,
    [pdqsort_func] of [sort/zsortfunc.go], run on [0, len(x)) with
    [limit = bits.Len(uint(len(x)))].  The slice is a list, indices are [Z];
    the loops carry a fuel bound ([S (length d)], or the recursion depth)
    that the Go loops never exceed.  [data.Less] and [data.Swap] are only
    called in range by the Go code (out of range [Less] is [false] and [Swap]
    does nothing here, Go panics). *)
Section GoSort.
Variable A : Type.
Variable less : A -> A -> bool.

Definition at_ (d : list A) (i : Z) : option A :=
  if i <? 0 then None else nth_error d (Z.to_nat i).

Fixpoint list_set (d : list A) (n : nat) (x : A) : list A :=
  match d, n with
  | [], _ => []
  | _ :: d', O => x :: d'
  | y :: d', S n' => y :: list_set d' n' x
  end.

(** [data.Less(i, j)] *)
Definition Less (d : list A) (i j : Z) : bool :=
  match at_ d i, at_ d j with
  | Some x, Some y => less x y
  | _, _ => false
  end.

(** [data.Swap(i, j)] *)
Definition Swap (d : list A) (i j : Z) : list A :=
  match at_ d i, at_ d j with
  | Some x, Some y => list_set (list_set d (Z.to_nat i) y) (Z.to_nat j) x
  | _, _ => d
  end.

Definition fuel_of (d : list A) : nat := S (List.length d).

(** [for i <= j && p(i) { i++ }] *)
Fixpoint scan_up (fuel : nat) (p : Z -> bool) (i j : Z) : Z :=
  match fuel with
  | O => i
  | S f => if (i <=? j) && p i then scan_up f p (i + 1) j else i
  end.

(** [for i <= j && p(j) { j-- }] *)
Fixpoint scan_down (fuel : nat) (p : Z -> bool) (i j : Z) : Z :=
  match fuel with
  | O => j
  | S f => if (i <=? j) && p j then scan_down f p i (j - 1) else j
  end.

(** [for j := i; j > a && data.Less(j, j-1); j-- { data.Swap(j, j-1) }] *)
Fixpoint ins_shift (fuel : nat) (d : list A) (a j : Z) : list A :=
  match fuel with
  | O => d
  | S f => if (a <? j) && Less d j (j - 1) then ins_shift f (Swap d j (j - 1)) a (j - 1) else d
  end.

(** [for i := a + 1; i < b; i++ { ... }] *)
Fixpoint ins_loop (fuel : nat) (d : list A) (a b i : Z) : list A :=
  match fuel with
  | O => d
  | S f => if i <? b then ins_loop f (ins_shift (fuel_of d) d a i) a b (i + 1) else d
  end.

Definition insertionSort_func (d : list A) (a b : Z) : list A :=
  ins_loop (fuel_of d) d a b (a + 1).

Fixpoint siftDown_func (fuel : nat) (d : list A) (root hi first : Z) : list A :=
  match fuel with
  | O => d
  | S f =>
      let child := 2 * root + 1 in
      if hi <=? child then d else
      let child := if (child + 1 <? hi) && Less d (first + child) (first + child + 1)
                   then child + 1 else child in
      if negb (Less d (first + root) (first + child)) then d else
      siftDown_func f (Swap d (first + root) (first + child)) child hi first
  end.

(** [for i := (hi - 1) / 2; i >= 0; i-- { siftDown_func(data, i, hi, first) }] *)
Fixpoint heap_build (fuel : nat) (d : list A) (i hi first : Z) : list A :=
  match fuel with
  | O => d
  | S f => if i <? 0 then d else heap_build f (siftDown_func (fuel_of d) d i hi first) (i - 1) hi first
  end.

(** [for i := hi - 1; i >= 0; i-- { data.Swap(first, first+i);
     siftDown_func(data, lo, i, first) }] *)
Fixpoint heap_pop (fuel : nat) (d : list A) (i first : Z) : list A :=
  match fuel with
  | O => d
  | S f =>
      if i <? 0 then d else
      let d := Swap d first (first + i) in
      heap_pop f (siftDown_func (fuel_of d) d 0 i first) (i - 1) first
  end.

Definition heapSort_func (d : list A) (a b : Z) : list A :=
  let hi := b - a in
  let d := heap_build (fuel_of d) d (Z.quot (hi - 1) 2) hi a in
  heap_pop (fuel_of d) d (hi - 1) a.

Inductive sortedHint : Type := unknownHint | increasingHint | decreasingHint.

(** [order2_func], [median_func], [medianAdjacent_func]: the counter
    [swaps] is passed and returned. *)
Definition order2_func (d : list A) (a b swaps : Z) : Z * Z * Z :=
  if Less d b a then (b, a, swaps + 1) else (a, b, swaps).

Definition median_func (d : list A) (a b c swaps : Z) : Z * Z :=
  let '(a, b, swaps) := order2_func d a b swaps in
  let '(b, c, swaps) := order2_func d b c swaps in
  let '(a, b, swaps) := order2_func d a b swaps in
  (b, swaps).

Definition medianAdjacent_func (d : list A) (a swaps : Z) : Z * Z :=
  median_func d (a - 1) a (a + 1) swaps.

(** [choosePivot_func]: [shortestNinther = 50], [maxSwaps = 4 * 3]. *)
Definition choosePivot_func (d : list A) (a b : Z) : Z * sortedHint :=
  let l := b - a in
  let i := a + Z.quot l 4 * 1 in
  let j := a + Z.quot l 4 * 2 in
  let k := a + Z.quot l 4 * 3 in
  let '(j, swaps) :=
    if 8 <=? l then
      let '(i, j, k, swaps) :=
        if 50 <=? l then
          let '(i, swaps) := medianAdjacent_func d i 0 in
          let '(j, swaps) := medianAdjacent_func d j swaps in
          let '(k, swaps) := medianAdjacent_func d k swaps in
          (i, j, k, swaps)
        else (i, j, k, 0) in
      median_func d i j k swaps
    else (j, 0) in
  (j, if swaps =? 0 then increasingHint
      else if swaps =? 12 then decreasingHint else unknownHint).

Fixpoint rev_loop (fuel : nat) (d : list A) (i j : Z) : list A :=
  match fuel with
  | O => d
  | S f => if i <? j then rev_loop f (Swap d i j) (i + 1) (j - 1) else d
  end.

Definition reverseRange_func (d : list A) (a b : Z) : list A :=
  rev_loop (fuel_of d) d a (b - 1).

(** [for i < b && !data.Less(i, i-1) { i++ }] *)
Fixpoint scan_sorted (fuel : nat) (d : list A) (i b : Z) : Z :=
  match fuel with
  | O => i
  | S f => if (i <? b) && negb (Less d i (i - 1)) then scan_sorted f d (i + 1) b else i
  end.

(** [for j := i - 1; j >= 1; j-- { if !data.Less(j, j-1) { break }; data.Swap(j, j-1) }] *)
Fixpoint shift_left (fuel : nat) (d : list A) (j : Z) : list A :=
  match fuel with
  | O => d
  | S f => if (1 <=? j) && Less d j (j - 1) then shift_left f (Swap d j (j - 1)) (j - 1) else d
  end.

(** [for j := i + 1; j < b; j++ { if !data.Less(j, j-1) { break }; data.Swap(j, j-1) }] *)
Fixpoint shift_right (fuel : nat) (d : list A) (j b : Z) : list A :=
  match fuel with
  | O => d
  | S f => if (j <? b) && Less d j (j - 1) then shift_right f (Swap d j (j - 1)) (j + 1) b else d
  end.

(** The [maxSteps] iterations of [partialInsertionSort_func]
    ([shortestShifting = 50]). *)
Fixpoint pis_steps (steps : nat) (d : list A) (a b i : Z) : list A * bool :=
  match steps with
  | O => (d, false)
  | S s =>
      let i := scan_sorted (fuel_of d) d i b in
      if i =? b then (d, true) else
      if b - a <? 50 then (d, false) else
      let d := Swap d i (i - 1) in
      let d := if 2 <=? i - a then shift_left (fuel_of d) d (i - 1) else d in
      let d := if 2 <=? b - i then shift_right (fuel_of d) d (i + 1) b else d in
      pis_steps s d a b i
  end.

Definition partialInsertionSort_func (d : list A) (a b : Z) : list A * bool :=
  pis_steps 5 d a b (a + 1).

Fixpoint peq_loop (fuel : nat) (d : list A) (a i j : Z) : list A * Z :=
  match fuel with
  | O => (d, i)
  | S f =>
      let i := scan_up (fuel_of d) (fun i => negb (Less d a i)) i j in
      let j := scan_down (fuel_of d) (fun j => Less d a j) i j in
      if j <? i then (d, i) else peq_loop f (Swap d i j) a (i + 1) (j - 1)
  end.

Definition partitionEqual_func (d : list A) (a b pivot : Z) : list A * Z :=
  let d := Swap d a pivot in
  peq_loop (fuel_of d) d a (a + 1) (b - 1).

Fixpoint part_loop (fuel : nat) (d : list A) (a i j : Z) : list A * Z :=
  match fuel with
  | O => (d, j)
  | S f =>
      let i := scan_up (fuel_of d) (fun i => Less d i a) i j in
      let j := scan_down (fuel_of d) (fun j => negb (Less d j a)) i j in
      if j <? i then (Swap d j a, j) else part_loop f (Swap d i j) a (i + 1) (j - 1)
  end.

(** [partition_func]: the new pivot position and [alreadyPartitioned]. *)
Definition partition_func (d : list A) (a b pivot : Z) : list A * Z * bool :=
  let d := Swap d a pivot in
  let i := scan_up (fuel_of d) (fun i => Less d i a) (a + 1) (b - 1) in
  let j := scan_down (fuel_of d) (fun j => negb (Less d j a)) i (b - 1) in
  if j <? i then (Swap d j a, j, true) else
  let '(d, mid) := part_loop (fuel_of d) (Swap d i j) a (i + 1) (j - 1) in
  (d, mid, false).

(** [bits.Len] on a non-negative value. *)
Definition bits_len (x : Z) : Z := if x <=? 0 then 0 else Z.log2 x + 1.

(** [xorshift.Next] on a [uint64]. *)
Definition xorshift_next (r : Z) : Z :=
  let r := Z.lxor r (Z.land (Z.shiftl r 13) (Z.ones 64)) in
  let r := Z.lxor r (Z.shiftr r 7) in
  Z.lxor r (Z.land (Z.shiftl r 17) (Z.ones 64)).

(** [for i := 0; i < 3; i++ { other := int(uint(random.Next()) & (modulus - 1));
     if other >= length { other -= length }; data.Swap(idx-1+i, a+other) }] *)
Fixpoint bp_loop (k : nat) (d : list A) (idx a length modulus r i : Z) : list A :=
  match k with
  | O => d
  | S k' =>
      let r := xorshift_next r in
      let other := Z.land r (modulus - 1) in
      let other := if length <=? other then other - length else other in
      bp_loop k' (Swap d (idx - 1 + i) (a + other)) idx a length modulus r (i + 1)
  end.

Definition breakPatterns_func (d : list A) (a b : Z) : list A :=
  let length := b - a in
  if 8 <=? length then
    bp_loop 3 d (a + Z.quot length 4 * 2 - 1) a length (Z.shiftl 1 (bits_len length)) length 0
  else d.

Definition is_increasingHint (h : sortedHint) : bool :=
  match h with increasingHint => true | _ => false end.

(** [pdqsort_func(data, a, b, limit)]; the [for] loop is the recursion with
    the loop variables [a], [b], [limit], [wasBalanced], [wasPartitioned]
    ([maxInsertion = 12]). *)
Fixpoint pdqsort_func (fuel : nat) (d : list A) (a b limit : Z)
    (wasBalanced wasPartitioned : bool) {struct fuel} : list A :=
  match fuel with
  | O => d
  | S f =>
      let length := b - a in
      if length <=? 12 then insertionSort_func d a b else
      if limit =? 0 then heapSort_func d a b else
      let '(d, limit) :=
        if wasBalanced then (d, limit) else (breakPatterns_func d a b, limit - 1) in
      let '(pivot, hint) := choosePivot_func d a b in
      let '(d, pivot, hint) :=
        match hint with
        | decreasingHint => (reverseRange_func d a b, (b - 1) - (pivot - a), increasingHint)
        | _ => (d, pivot, hint)
        end in
      let '(d, sorted) :=
        if wasBalanced && wasPartitioned && is_increasingHint hint
        then partialInsertionSort_func d a b else (d, false) in
      if sorted then d else
      if (0 <? a) && negb (Less d (a - 1) pivot) then
        let '(d, mid) := partitionEqual_func d a b pivot in
        pdqsort_func f d mid b limit wasBalanced wasPartitioned
      else
      let '(d, mid, alreadyPartitioned) := partition_func d a b pivot in
      let leftLen := mid - a in
      let rightLen := b - mid in
      let balanceThreshold := Z.quot length 8 in
      if leftLen <? rightLen then
        let d := pdqsort_func f d a mid limit true true in
        pdqsort_func f d (mid + 1) b limit (balanceThreshold <=? leftLen) alreadyPartitioned
      else
        let d := pdqsort_func f d (mid + 1) b limit true true in
        pdqsort_func f d a mid limit (balanceThreshold <=? rightLen) alreadyPartitioned
  end.

End GoSort.

(** [sort.Slice(x, less)] as shipped with Go 1.19 and later. *)
Definition go_sort_Slice : SortSlice :=
  fun A less l =>
    let n := Z.of_nat (List.length l) in
    pdqsort_func A less (S (List.length l)) l 0 n (bits_len n) true true.

(** ** Context assembly and [Answer] *)

(** [promptTmpl], a raw string literal of 36 bytes. *)
Definition promptTmpl : string :=
  String.append "{{.Question}}"
    (String nl (String nl (String.append "Context:" (String nl "{{.Context}}")))).

Definition sep : string := String nl (String nl EmptyString).

(** [for _, chunk := range chunks { context += chunk.Text + "\n\n";
     if len(context)+len(promptTmpl) > maxSize { break } }] *)
Fixpoint assemble_context (maxSize : Z) (context : string) (chunks : list Chunk) : string :=
  match chunks with
  | [] => context
  | chunk :: rest =>
      let context' := String.append context (String.append chunk.(Text) sep) in
      if Z.of_nat (String.length context') + Z.of_nat (String.length promptTmpl) >? maxSize
      then context'
      else assemble_context maxSize context' rest
  end.

(** [maxSize := int(float64(g.MaxChunkSize) * 0.5)]: truncation toward zero
    (exact for sizes below 2^53). *)
Definition answer_maxSize (g : Grokker) : Z := Z.quot g.(MaxChunkSize) 2.

Record Message : Type := mkMessage { Role : string; Content : string }.

(** The chat endpoint: the messages in, the content of the first choice out. *)
Definition ChatClient : Type := list Message -> option string.

(** [Generate(question, ctxt, global)]: the messages sent last and the
    answer. *)
Definition Generate (chat : ChatClient) (question ctxt : string) (global : bool)
    : option (list Message * string) :=
  let system := [mkMessage "system" "You are a helpful assistant."] in
  let first :=
    if global then
      match chat (system ++ [mkMessage "user" question]) with
      | Some r => Some (system ++ [mkMessage "user" question; mkMessage "assistant" r])
      | None => None
      end
    else Some system in
  match first with
  | None => None
  | Some msgs =>
      let msgs := msgs ++ [mkMessage "user" ctxt;
                           mkMessage "assistant" "Great! I've read the context.";
                           mkMessage "user" question] in
      match chat msgs with
      | Some r => Some (msgs, r)
      | None => None
      end
  end.

(** [FindChunks(question, 0)] then the context loop, then [Generate]. *)
Definition Answer (sort_Slice : SortSlice)
    (Similarity : list float64 -> list float64 -> Z)
    (client : EmbedClient) (chat : ChatClient) (g : Grokker)
    (question : string) (global : bool) : option (list Message * string) :=
  match snd (CreateEmbeddings client [question]) with
  | Some (queryEmbedding :: _) =>
      let chunks := SimilarChunks sort_Slice Similarity g queryEmbedding 0 in
      let context := assemble_context (answer_maxSize g) EmptyString chunks in
      Generate chat question context global
  | _ => None
  end.

(** ** Persistence: [Save] and [Load] through [encoding/json]

    [json.Marshal] writes a string "coerced to valid UTF-8, replacing
    invalid bytes with the Unicode replacement rune" (its documentation and
    [encodeState.string]: a byte at which [utf8.DecodeRuneInString] returns
    [(RuneError, 1)] is written as [�]); it refuses NaN and infinite
    floats ([UnsupportedValueError]).  The model keeps the JSON value tree;
    the text layer (printing the tree and parsing it back) is exact for
    the trees [Marshal] produces and is not modelled. *)

Definition in_range (b lo hi : nat) : bool := Nat.leb lo b && Nat.leb b hi.

Definition byte_at (s : string) (k : nat) : option nat :=
  match String.get k s with Some a => Some (nat_of_ascii a) | None => None end.

Definition cont_in (s : string) (k lo hi : nat) : bool :=
  match byte_at s k with Some b => in_range b lo hi | None => false end.

(** The size of the rune at the head of [s] as [utf8.DecodeRuneInString]
    decodes it, [None] when it returns [(RuneError, 1)] on a non-empty
    input. *)
Definition utf8_rune_len (s : string) : option nat :=
  match byte_at s 0 with
  | None => None
  | Some b0 =>
      if Nat.ltb b0 128 then Some 1%nat
      else if Nat.ltb b0 194 then None
      else if Nat.ltb b0 224 then
        if cont_in s 1 128 191 then Some 2%nat else None
      else if Nat.ltb b0 240 then
        let lo := if Nat.eqb b0 224 then 160%nat else 128%nat in
        let hi := if Nat.eqb b0 237 then 159%nat else 191%nat in
        if cont_in s 1 lo hi && cont_in s 2 128 191 then Some 3%nat else None
      else if Nat.ltb b0 245 then
        let lo := if Nat.eqb b0 240 then 144%nat else 128%nat in
        let hi := if Nat.eqb b0 244 then 143%nat else 191%nat in
        if cont_in s 1 lo hi && cont_in s 2 128 191 && cont_in s 3 128 191
        then Some 4%nat else None
      else None
  end.

(** U+FFFD in UTF-8. *)
Definition replacement_char : string :=
  String (ascii_of_nat 239) (String (ascii_of_nat 191) (String (ascii_of_nat 189) EmptyString)).

Definition str_drop (k : nat) (s : string) : string := substring k (String.length s) s.

(** The string [encodeState.string] writes, once decoded. *)
Fixpoint coerce_utf8_fuel (fuel : nat) (s : string) : string :=
  match fuel with
  | O => s
  | S fuel' =>
      match s with
      | EmptyString => EmptyString
      | String _ rest =>
          match utf8_rune_len s with
          | None => String.append replacement_char (coerce_utf8_fuel fuel' rest)
          | Some k => String.append (substring 0 k s) (coerce_utf8_fuel fuel' (str_drop k s))
          end
      end
  end.

Definition coerce_utf8 (s : string) : string := coerce_utf8_fuel (String.length s) s.

(** [utf8.ValidString]. *)
Fixpoint valid_utf8_fuel (fuel : nat) (s : string) : bool :=
  match fuel with
  | O => true
  | S fuel' =>
      match s with
      | EmptyString => true
      | String _ _ =>
          match utf8_rune_len s with
          | None => false
          | Some k => valid_utf8_fuel fuel' (str_drop k s)
          end
      end
  end.

Definition valid_utf8 (s : string) : bool := valid_utf8_fuel (String.length s) s.

Set Warnings "-register-all".
Inductive json : Type :=
| JNull
| JInt (z : Z)
| JFloat (f : float64)
| JString (s : string)
| JArray (l : list json)
| JObject (fields : list (string * json)).

Definition finite (f : float64) : bool :=
  match f with Finite _ _ => true | _ => false end.

Definition marshal_float (f : float64) : option json :=
  if finite f then Some (JFloat f) else None.

Fixpoint marshal_floats (l : list float64) : option (list json) :=
  match l with
  | [] => Some []
  | f :: l' =>
      match marshal_float f, marshal_floats l' with
      | Some j, Some js => Some (j :: js)
      | _, _ => None
      end
  end.

Definition marshal_document (d : Document) : json :=
  JObject [("Path"%string, JString (coerce_utf8 d.(Path)))].

Definition marshal_chunk (c : Chunk) : option json :=
  match marshal_floats c.(Embedding) with
  | Some es =>
      Some (JObject [("Document"%string, marshal_document c.(ChunkDoc));
                     ("Text"%string, JString (coerce_utf8 c.(Text)));
                     ("Embedding"%string, JArray es)])
  | None => None
  end.

Fixpoint marshal_chunks (cs : list Chunk) : option (list json) :=
  match cs with
  | [] => Some []
  | c :: cs' =>
      match marshal_chunk c, marshal_chunks cs' with
      | Some j, Some js => Some (j :: js)
      | _, _ => None
      end
  end.

(** [json.Marshal(g)]: the exported fields in declaration order. *)
Definition Marshal (g : Grokker) : option json :=
  match marshal_chunks g.(Chunks), marshal_float g.(CharsPerToken) with
  | Some cs, Some cpt =>
      Some (JObject [("Root"%string, JString (coerce_utf8 g.(Root)));
                     ("Documents"%string, JArray (map marshal_document g.(Documents)));
                     ("Chunks"%string, JArray cs);
                     ("MaxChunkSize"%string, JInt g.(MaxChunkSize));
                     ("CharsPerToken"%string, cpt)])
  | _, _ => None
  end.

(** [Save(w)]: the data handed to [w.Write], [None] when [Marshal] fails
    ([Ck] panics).  The writer is taken to accept the data: an error
    returned by [w.Write] is not modelled. *)
Definition Save (g : Grokker) : option json := Marshal g.

(** [json.Unmarshal]: the fields of an object are decoded in turn into the
    value being filled; unknown keys are skipped; [null] decodes to an
    empty slice. *)
Definition unmarshal_string (j : json) : option string :=
  match j with JString s => Some s | _ => None end.

Definition unmarshal_float (j : json) : option float64 :=
  match j with JFloat f => Some f | _ => None end.

Definition unmarshal_document (j : json) : option Document :=
  match j with
  | JObject fields =>
      fold_left (fun acc kv =>
        match acc with
        | None => None
        | Some d =>
            if String.eqb (fst kv) "Path"%string
            then match unmarshal_string (snd kv) with
                 | Some s => Some (mkDocument s) | None => None end
            else Some d
        end) fields (Some (mkDocument EmptyString))
  | _ => None
  end.

Fixpoint unmarshal_list {A : Type} (f : json -> option A) (l : list json) : option (list A) :=
  match l with
  | [] => Some []
  | j :: l' =>
      match f j, unmarshal_list f l' with
      | Some a, Some al => Some (a :: al)
      | _, _ => None
      end
  end.

Definition unmarshal_slice {A : Type} (f : json -> option A) (j : json) : option (list A) :=
  match j with
  | JNull => Some []
  | JArray l => unmarshal_list f l
  | _ => None
  end.

(** A chunk starts from its zero value (the nil [*Document] is modelled by
    a document with an empty path). *)
Definition unmarshal_chunk (j : json) : option Chunk :=
  match j with
  | JObject fields =>
      fold_left (fun acc kv =>
        match acc with
        | None => None
        | Some c =>
            if String.eqb (fst kv) "Document" then
              match unmarshal_document (snd kv) with
              | Some d => Some (mkChunk d c.(Text) c.(Embedding)) | None => None end
            else if String.eqb (fst kv) "Text" then
              match unmarshal_string (snd kv) with
              | Some s => Some (mkChunk c.(ChunkDoc) s c.(Embedding)) | None => None end
            else if String.eqb (fst kv) "Embedding" then
              match unmarshal_slice unmarshal_float (snd kv) with
              | Some e => Some (mkChunk c.(ChunkDoc) c.(Text) e) | None => None end
            else Some c
        end) fields (Some (mkChunk (mkDocument EmptyString) EmptyString []))
  | _ => None
  end.

Definition unmarshal_grokker_field (g : Grokker) (kv : string * json) : option Grokker :=
  let '(k, v) := kv in
  if String.eqb k "Root" then
    match unmarshal_string v with
    | Some s => Some (mkGrokker s g.(Documents) g.(Chunks) g.(MaxChunkSize) g.(CharsPerToken))
    | None => None end
  else if String.eqb k "Documents" then
    match unmarshal_slice unmarshal_document v with
    | Some ds => Some (set_Documents g ds) | None => None end
  else if String.eqb k "Chunks" then
    match unmarshal_slice unmarshal_chunk v with
    | Some cs => Some (set_Chunks g cs) | None => None end
  else if String.eqb k "MaxChunkSize" then
    match v with
    | JInt z => Some (mkGrokker g.(Root) g.(Documents) g.(Chunks) z g.(CharsPerToken))
    | _ => None end
  else if String.eqb k "CharsPerToken" then
    match unmarshal_float v with
    | Some f => Some (mkGrokker g.(Root) g.(Documents) g.(Chunks) g.(MaxChunkSize) f)
    | None => None end
  else Some g.

(** [Load(r)]: [g = New()] then [json.Unmarshal(buf, g)]. *)
Definition Load (j : json) : option Grokker :=
  match j with
  | JObject fields =>
      fold_left (fun acc kv => match acc with
                               | Some g => unmarshal_grokker_field g kv
                               | None => None end) fields (Some New)
  | _ => None
  end.

(** The sizes of the batches [CreateEmbeddings] cuts [n] texts into. *)
Fixpoint batch_sizes (fuel n : nat) : list nat :=
  match n with
  | O => []
  | _ => match fuel with O => [] | S fuel' => Nat.min 100 n :: batch_sizes fuel' (n - 100) end
  end.

(** ** Sequences of store operations *)

Inductive StoreOp : Type :=
| OpAddDocument (path : string)
| OpUpdateDocument (doc : Document)
| OpRemoveDocument (doc : Document)
| OpGC.

(** A failed [UpdateDocument] leaves the store as it was. *)
Definition run_op (client : EmbedClient) (fs : FS) (g : Grokker) (op : StoreOp) : Grokker :=
  match op with
  | OpAddDocument path => fst (AddDocument client fs g path)
  | OpUpdateDocument doc =>
      match snd (UpdateDocument client fs g doc) with
      | Some (g', _) => g'
      | None => g
      end
  | OpRemoveDocument doc => RemoveDocument g doc
  | OpGC => GC g
  end.

Definition run_ops (client : EmbedClient) (fs : FS) (g : Grokker) (ops : list StoreOp) : Grokker :=
  fold_left (run_op client fs) ops g.

(** No two chunks of one document have the same text. *)
Definition chunk_key (c : Chunk) : string * string := (c.(ChunkDoc).(Path), c.(Text)).

Definition chunk_texts_unique (g : Grokker) : Prop := NoDup (map chunk_key g.(Chunks)).

(** The chunker never yields the same segment twice for one document. *)
Definition segments_distinct (fs : FS) (g : Grokker) : Prop :=
  forall doc cs, chunkStrings fs g doc = Some cs -> NoDup cs.

(** Two chunks of the store, [ci] before [cj], with equal scores appear in
    the output in that order. *)
Definition ties_in_store_order (Similarity : list float64 -> list float64 -> Z)
    (embedding : list float64) (g : Grokker) (out : list Chunk) : Prop :=
  forall i j ci cj,
    (i < j)%nat -> nth_error g.(Chunks) i = Some ci -> nth_error g.(Chunks) j = Some cj ->
    ci <> cj -> Similarity embedding ci.(Embedding) = Similarity embedding cj.(Embedding) ->
    exists i' j', (i' < j')%nat /\ nth_error out i' = Some ci /\ nth_error out j' = Some cj.

(** What [Save] writes back unchanged: strings valid UTF-8, floats finite. *)
Definition json_safe (g : Grokker) : Prop :=
  valid_utf8 g.(Root) = true /\
  Forall (fun d => valid_utf8 d.(Path) = true) g.(Documents) /\
  Forall (fun c => valid_utf8 c.(ChunkDoc).(Path) = true /\ valid_utf8 c.(Text) = true /\
                   Forall (fun f => finite f = true) c.(Embedding)) g.(Chunks) /\
  finite g.(CharsPerToken) = true.

(** ** Further operations: [FindChunks] and [RefreshEmbeddings] *)

(** [FindChunks(query, K)]: one embedding request for [[]string{query}],
    then [SimilarChunks(embeddings[0], K)]; an empty answer makes
    [embeddings[0]] fail.  The result is the requests sent and the chunks,
    [None] on an error. *)
Definition FindChunks (sort_Slice : SortSlice)
    (Similarity : list float64 -> list float64 -> Z)
    (client : EmbedClient) (g : Grokker) (query : string) (K : Z)
    : list (list string) * option (list Chunk) :=
  let '(reqs, r) := CreateEmbeddings client [query] in
  match r with
  | Some (queryEmbedding :: _) =>
      (reqs, Some (SimilarChunks sort_Slice Similarity g queryEmbedding K))
  | _ => (reqs, None)
  end.

(** The loop of [RefreshEmbeddings]: [for _, doc := range g.Documents {
    _, err = g.UpdateDocument(doc); Ck(err) }].  [UpdateDocument] does not
    touch [g.Documents], so the loop reads the original list.  The result
    is the requests sent and the store, [None] once an update fails. *)
Fixpoint refresh_loop (client : EmbedClient) (fs : FS) (docs : list Document)
    (g : Grokker) : list (list string) * option Grokker :=
  match docs with
  | [] => ([], Some g)
  | doc :: docs' =>
      let '(reqs, r) := UpdateDocument client fs g doc in
      match r with
      | None => (reqs, None)
      | Some (g', _) =>
          let '(reqs', r') := refresh_loop client fs docs' g' in
          (reqs ++ reqs', r')
      end
  end.

(** [RefreshEmbeddings()]: the loop, then [g.GC()]. *)
Definition RefreshEmbeddings (client : EmbedClient) (fs : FS) (g : Grokker)
    : list (list string) * option Grokker :=
  let '(reqs, r) := refresh_loop client fs g.(Documents) g in
  match r with
  | Some g' => (reqs, Some (GC g'))
  | None => (reqs, None)
  end.

(** The store [Load] rebuilds from what [Save] wrote: every string passed
    through [coerce_utf8], everything else as it was. *)
Definition coerce_document (d : Document) : Document := mkDocument (coerce_utf8 d.(Path)).

Definition coerce_chunk (c : Chunk) : Chunk :=
  mkChunk (coerce_document c.(ChunkDoc)) (coerce_utf8 c.(Text)) c.(Embedding).

Definition coerce_store (g : Grokker) : Grokker :=
  mkGrokker (coerce_utf8 g.(Root)) (map coerce_document g.(Documents))
    (map coerce_chunk g.(Chunks)) g.(MaxChunkSize) g.(CharsPerToken).

(** Every segment [chunkStrings] would give [doc] is already the text of a
    chunk of [doc], counted with multiplicity. *)
Definition doc_covered (fs : FS) (g : Grokker) (doc : Document) : Prop :=
  exists cs, chunkStrings fs g doc = Some cs /\
    forall t, (count_occ string_dec cs t <=
               count_occ string_dec (map Text (doc_chunks doc.(Path) g.(Chunks))) t)%nat.

(** Document paths are distinct. *)
Definition paths_unique (g : Grokker) : Prop := NoDup (map Path g.(Documents)).

(** The context [Answer] would build from the first [k] chunks, and the
    condition under which [Answer] accepts a context of a given size. *)
Definition context_prefix (k : nat) (chunks : list Chunk) : string :=
  String.concat EmptyString (map (fun c => String.append c.(Text) sep) (firstn k chunks)).

Definition context_fits (maxSize : Z) (s : string) : Prop :=
  Z.of_nat (String.length s) + Z.of_nat (String.length promptTmpl) <= maxSize.

(** ** aidda: [extractHeaders]

    [strings.TrimSpace] is a parameter [TrimSpace] of the definitions
    (the properties below hold for any trimming function); [trim_ascii]
    agrees with it on ASCII strings.  The [map[string]string] is an
    association list, newest binding first; the caller only reads it by
    index ([headerMap["In"]]), which [map_get] models. *)

(** [strings.HasPrefix(h, " ") || strings.HasPrefix(h, "\t")] *)
Definition is_continuation (h : string) : bool :=
  match h with
  | String c _ => Ascii.eqb c " "%char || Ascii.eqb c "009"%char
  | EmptyString => false
  end.

(** [strings.SplitN(h, ":", 2)]: [Some (before, after)] when [h] holds a
    colon (two parts), [None] when it does not (one part). *)
Fixpoint split_colon (s : string) : option (string * string) :=
  match s with
  | EmptyString => None
  | String c rest =>
      if Ascii.eqb c ":"%char then Some (EmptyString, rest)
      else match split_colon rest with
           | Some (a, b) => Some (String c a, b)
           | None => None
           end
  end.

Definition map_lookup (m : list (string * string)) (k : string) : option string :=
  match find (fun kv => String.eqb (fst kv) k) m with
  | Some kv => Some (snd kv)
  | None => None
  end.

(** [m[k]]: the zero value [""] for a missing key. *)
Definition map_get (m : list (string * string)) (k : string) : string :=
  match map_lookup m k with Some v => v | None => EmptyString end.

Definition map_set (m : list (string * string)) (k v : string) : list (string * string) :=
  (k, v) :: m.

Fixpoint extract_headers_loop (TrimSpace : string -> string) (hs : list string)
    (headerMap : list (string * string)) (currentKey : string) : option (list (string * string)) :=
  match hs with
  | [] => Some headerMap
  | h :: hs' =>
      if String.eqb h EmptyString then extract_headers_loop TrimSpace hs' headerMap currentKey
      else if is_continuation h then
        if String.eqb currentKey EmptyString then None
        else
          let continuation := TrimSpace h in
          extract_headers_loop TrimSpace hs'
            (map_set headerMap currentKey
               (String.append (map_get headerMap currentKey) (String.append " " continuation)))
            currentKey
      else
        match split_colon h with
        | None => extract_headers_loop TrimSpace hs' headerMap currentKey
        | Some (k0, v0) =>
            let key := TrimSpace k0 in
            let value := TrimSpace v0 in
            extract_headers_loop TrimSpace hs' (map_set headerMap key value) key
        end
  end.

(** [extractHeaders(headers)]: [None] for the error. *)
Definition extractHeaders (TrimSpace : string -> string) (headers : list string)
    : option (list (string * string)) :=
  extract_headers_loop TrimSpace headers [] EmptyString.

(** The name and value of a header line (neither empty nor a
    continuation, with a colon), both trimmed. *)
Definition header_kv (TrimSpace : string -> string) (h : string) : option (string * string) :=
  if String.eqb h EmptyString then None
  else if is_continuation h then None
  else match split_colon h with
       | Some (k0, v0) => Some (TrimSpace k0, TrimSpace v0)
       | None => None
       end.

(** The name of the last header line of [hs], [cur] when there is none. *)
Fixpoint last_key (TrimSpace : string -> string) (cur : string) (hs : list string) : string :=
  match hs with
  | [] => cur
  | h :: hs' =>
      last_key TrimSpace (match header_kv TrimSpace h with Some (k, _) => k | None => cur end) hs'
  end.

(** The value of the last header line of [hs] named [k]. *)
Fixpoint last_header_value (TrimSpace : string -> string) (k : string) (hs : list string) : option string :=
  match hs with
  | [] => None
  | h :: hs' =>
      match last_header_value TrimSpace k hs' with
      | Some v => Some v
      | None =>
          match header_kv TrimSpace h with
          | Some (k', v) => if String.eqb k' k then Some v else None
          | None => None
          end
      end
  end.

Definition is_ascii_space (c : ascii) : bool :=
  match nat_of_ascii c with 9 | 10 | 11 | 12 | 13 | 32 => true | _ => false end%nat.

Fixpoint trim_left_ascii (s : string) : string :=
  match s with
  | String c rest => if is_ascii_space c then trim_left_ascii rest else s
  | EmptyString => EmptyString
  end.

Fixpoint string_rev (s : string) : string :=
  match s with
  | EmptyString => EmptyString
  | String c rest => String.append (string_rev rest) (String c EmptyString)
  end.

Definition trim_ascii (s : string) : string :=
  string_rev (trim_left_ascii (string_rev (trim_left_ascii s))).

(** ** Concrete inputs *)

Fixpoint str_repeat (n : nat) (a : ascii) : string :=
  match n with O => EmptyString | S n' => String a (str_repeat n' a) end.

(** A similarity reading the score off the chunk embedding's first value. *)
Definition first_value_score (q e : list float64) : Z :=
  match e with Finite m _ :: _ => m | _ => 0 end.

(** An embedding client that answers every batch, one vector per text. *)
Definition length_client : EmbedClient :=
  fun batch => Some (map (fun s => [Finite (Z.of_nat (String.length s)) 0]) batch).

Definition fixed_chat : ChatClient := fun _ => Some "answer"%string.

Definition chunk4000 (a : ascii) (score : Z) : Chunk :=
  mkChunk (mkDocument "doc") (str_repeat 4000 a) [Finite score 0].

(** [MaxChunkSize = 16384]; three ranked chunks of 4000 bytes. *)
Definition store_4000x3 : Grokker :=
  mkGrokker EmptyString [mkDocument "doc"]
    [chunk4000 "a" 3; chunk4000 "b" 2; chunk4000 "c" 1] 16384 (Finite 7 (-1)).

(** A file system where every file has the given text and [grok] is newer. *)
Definition fs_text (txt : string) : FS :=
  mkFS (fun p => if String.eqb p "grok" then ModTime 10 else ModTime 0) (fun _ => Some txt).

(** [a.txt] and [b.txt] are missing, [c.txt] is older than [grok]. *)
Definition fs_ab_missing : FS :=
  mkFS (fun p => if String.eqb p "c.txt" then ModTime 0
                 else if String.eqb p "grok" then ModTime 10 else NotExist)
       (fun p => if String.eqb p "c.txt" then Some "c"%string else None).

Definition store_abc : Grokker :=
  mkGrokker EmptyString [mkDocument "a.txt"; mkDocument "b.txt"; mkDocument "c.txt"] []
    16384 (Finite 7 (-1)).

(** Documents [a.txt; b.txt; c.txt], a chunk for each and one for a
    document no longer in the store. *)
Definition store_abc_chunks : Grokker :=
  mkGrokker EmptyString [mkDocument "a.txt"; mkDocument "b.txt"; mkDocument "c.txt"]
    [mkChunk (mkDocument "a.txt") "A" [Finite 1 0];
     mkChunk (mkDocument "z.txt") "Z" [Finite 1 0];
     mkChunk (mkDocument "b.txt") "B" [Finite 1 0];
     mkChunk (mkDocument "c.txt") "C" [Finite 1 0]]
    16384 (Finite 7 (-1)).

(** Thirteen chunks of one document: [c0] .. [c11] with one score, and
    [c12] with a higher one. *)
Definition chunk_tie (text : string) (score : Z) : Chunk :=
  mkChunk (mkDocument "doc") text [Finite score 0].

Definition store_tie13 : Grokker :=
  mkGrokker EmptyString [mkDocument "doc"]
    (map (fun t => chunk_tie t 0)
       ["c0"; "c1"; "c2"; "c3"; "c4"; "c5"; "c6"; "c7"; "c8"; "c9"; "c10"; "c11"]%string
     ++ [chunk_tie "c12" 1])
    16384 (Finite 7 (-1)).

(** Three paragraphs, the first one repeated. *)
Definition text_one_two_one : string :=
  String.append "one" (String.append sep (String.append "two" (String.append sep "one"))).

Definition store_doc_a : Grokker :=
  mkGrokker EmptyString [mkDocument "a"] [] 16384 (Finite 7 (-1)).

(** [store_doc_a] after [UpdateDocument] of [a] with [text_one_two_one]
    under [length_client]. *)
Definition store_one_two_one : Grokker :=
  mkGrokker EmptyString [mkDocument "a"]
    [mkChunk (mkDocument "a") "one" [Finite 3 0];
     mkChunk (mkDocument "a") "two" [Finite 3 0];
     mkChunk (mkDocument "a") "one" [Finite 3 0]]
    16384 (Finite 7 (-1)).

(** A chunk whose text is the single byte [0xFF], not valid UTF-8 (as when
    a long paragraph is cut inside a multi-byte rune). *)
Definition store_invalid_text : Grokker :=
  mkGrokker EmptyString [mkDocument "a"]
    [mkChunk (mkDocument "a") (String (ascii_of_nat 255) EmptyString) [Finite 1 0]]
    16384 (Finite 7 (-1)).

(** A client answering one vector per batch, whatever its size. *)
Definition one_vector_client : EmbedClient := fun _ => Some [[Finite 0 0]].

(** Header lines naming [In] twice. *)
Definition headers_in_twice : list string :=
  ["In: a.go"; ""; "Out: b.go"; "In: c.go"]%string.

(** ** Properties *)

(** *** Context assembly *)

(** C1 (evaluated at the failing input): with [MaxChunkSize = 16384] (budget
    8192) and three ranked chunks of 4000 bytes, the context [Answer] sends
    holds all three chunks: the third is appended before the length test,
    and the context plus the template (12042 bytes) exceeds the budget. *)
Theorem Answer_context_keeps_overflowing_chunk :
  let ctx := assemble_context (answer_maxSize store_4000x3) EmptyString
               (SimilarChunks insertion_sort first_value_score store_4000x3 [] 0) in
  ctx = String.append (str_repeat 4000 "a") (String.append sep
          (String.append (str_repeat 4000 "b") (String.append sep
            (String.append (str_repeat 4000 "c") sep)))) /\
  answer_maxSize store_4000x3 = 8192 /\
  Z.of_nat (String.length ctx + String.length promptTmpl) = 12042 /\
  exists msgs r,
    Answer insertion_sort first_value_score length_client fixed_chat store_4000x3 "q" false
      = Some (msgs, r) /\ In (mkMessage "user" ctx) msgs.
Proof.
  cbv zeta.
  split; [vm_compute; reflexivity |].
  split; [vm_compute; reflexivity |].
  split; [vm_compute; reflexivity |].
  do 2 eexists. split.
  - vm_compute. reflexivity.
  - simpl. right. left. reflexivity.
Qed.

(** *** UpdateEmbeddings *)

(** C5 (evaluated at the failing input): documents [a.txt; b.txt; c.txt],
    [a.txt] and [b.txt] missing on disk.  [UpdateEmbeddings] succeeds but
    [b.txt] is still in the store: after [a.txt] is removed in place,
    [b.txt] moves to index 0 and the range loop goes on at index 1. *)
Theorem UpdateEmbeddings_keeps_second_missing :
  UpdateEmbeddings length_client fs_ab_missing "grok" store_abc =
    (mkGrokker EmptyString [mkDocument "b.txt"; mkDocument "c.txt"] [] 16384 (Finite 7 (-1)),
     true, true) /\
  fs_ab_missing.(stat) "b.txt" = NotExist.
Proof. split; vm_compute; reflexivity. Qed.

(** *** RemoveDocument *)

Lemma find_path_index_spec (p : string) (l : list Document) :
  match find_path_index p l with
  | Some i => exists pre d post, l = pre ++ d :: post /\ List.length pre = i /\
                d.(Path) = p /\ Forall (fun d' => d'.(Path) <> p) pre
  | None => Forall (fun d' => d'.(Path) <> p) l
  end.
Proof.
  induction l as [|d l IH]; simpl.
  - constructor.
  - destruct (String.eqb_spec d.(Path) p) as [Hp|Hp].
    + exists [], d, l. auto.
    + destruct (find_path_index p l) as [i|].
      * destruct IH as (pre & d' & post & -> & Hlen & Hd' & Hpre).
        exists (d :: pre), d', post. simpl. repeat split; auto.
      * constructor; auto.
Qed.

Lemma firstn_app_length {A : Type} (l1 l2 : list A) :
  firstn (List.length l1) (l1 ++ l2) = l1.
Proof. induction l1 as [|a l1 IH]; simpl; congruence. Qed.

(** Deleting index [length pre] of a full slice: the visible part is
    [pre ++ post]. *)
Lemma slice_delete_view {A : Type} (pre post : list A) (x : A) :
  firstn (List.length (pre ++ x :: post) - 1)
    (slice_delete (pre ++ x :: post) (List.length (pre ++ x :: post)) (List.length pre))
  = pre ++ post.
Proof.
  unfold slice_delete.
  rewrite length_app. change (List.length (x :: post)) with (S (List.length post)).
  replace (List.length pre + S (List.length post) - S (List.length pre))%nat
    with (List.length post) by lia.
  replace (List.length pre + S (List.length post) - 1)%nat
    with (List.length (pre ++ post)) by (rewrite length_app; lia).
  rewrite firstn_app_length.
  replace (skipn (S (List.length pre)) (pre ++ x :: post)) with post.
  2:{ induction pre as [|a pre IH]; simpl; auto. }
  rewrite firstn_all.
  rewrite app_assoc. apply firstn_app_length.
Qed.

(** The documents after [RemoveDocument]: the first entry with the path
    is taken out, the others stay in order. *)
Lemma RemoveDocument_Documents (g : Grokker) (doc : Document) :
  (Forall (fun d => d.(Path) <> doc.(Path)) g.(Documents) /\
   (RemoveDocument g doc).(Documents) = g.(Documents)) \/
  (exists pre d post, g.(Documents) = pre ++ d :: post /\ d.(Path) = doc.(Path) /\
     Forall (fun d' => d'.(Path) <> doc.(Path)) pre /\
     (RemoveDocument g doc).(Documents) = pre ++ post).
Proof.
  destruct g as [r ds cs m cpt]. unfold RemoveDocument, RemoveDocument_slice. simpl.
  rewrite firstn_all.
  pose proof (find_path_index_spec doc.(Path) ds) as Hspec.
  destruct (find_path_index doc.(Path) ds) as [i|].
  - destruct Hspec as (pre & d & post & -> & <- & Hd & Hpre).
    right. exists pre, d, post. repeat split; auto.
    simpl. apply slice_delete_view.
  - left. simpl. rewrite firstn_all. auto.
Qed.

(** C9: [RemoveDocument(d)] takes the entry for [d]'s path out of the
    document list (the first one; the others keep their order), and leaves
    the chunk list, the root and the configuration fields unchanged. *)
Theorem RemoveDocument_frame (g : Grokker) (doc : Document) :
  let g' := RemoveDocument g doc in
  g'.(Chunks) = g.(Chunks) /\ g'.(Root) = g.(Root) /\
  g'.(MaxChunkSize) = g.(MaxChunkSize) /\ g'.(CharsPerToken) = g.(CharsPerToken) /\
  ((Forall (fun d => d.(Path) <> doc.(Path)) g.(Documents) /\ g'.(Documents) = g.(Documents)) \/
   (exists pre d post, g.(Documents) = pre ++ d :: post /\ d.(Path) = doc.(Path) /\
      Forall (fun d' => d'.(Path) <> doc.(Path)) pre /\ g'.(Documents) = pre ++ post)).
Proof.
  cbv zeta.
  assert (Hsame : forall ds, (set_Documents g ds).(Chunks) = g.(Chunks) /\
                  (set_Documents g ds).(Root) = g.(Root) /\
                  (set_Documents g ds).(MaxChunkSize) = g.(MaxChunkSize) /\
                  (set_Documents g ds).(CharsPerToken) = g.(CharsPerToken))
    by (intros; repeat split).
  unfold RemoveDocument at 1 2 3 4.
  destruct (RemoveDocument_slice g.(Documents) (List.length g.(Documents)) doc) as [arr n].
  destruct (Hsame (firstn n arr)) as (H1 & H2 & H3 & H4).
  repeat split; auto.
  apply RemoveDocument_Documents.
Qed.

(** *** GC *)

Lemma referenced_spec (ds : list Document) (c : Chunk) :
  referenced ds c = true <-> exists d, In d ds /\ d.(Path) = c.(ChunkDoc).(Path).
Proof.
  unfold referenced. rewrite existsb_exists.
  split; intros (d & Hin & Heq); exists d; split; auto;
    apply String.eqb_eq; assumption.
Qed.

(** C6: [GC] keeps exactly the chunks whose document path is the path of a
    document of the store, in their order; with document paths unique (the
    store's key), no chunk of a removed document survives [GC]. *)
Theorem GC_keeps_exactly_referenced (g : Grokker) (d : Document)
    (Hd : In d g.(Documents)) (Hpaths : NoDup (map Path g.(Documents))) :
  (forall c, In c (GC g).(Chunks) <->
     In c g.(Chunks) /\ exists d', In d' g.(Documents) /\ d'.(Path) = c.(ChunkDoc).(Path)) /\
  (GC g).(Chunks) = filter (referenced g.(Documents)) g.(Chunks) /\
  (GC g).(Documents) = g.(Documents) /\
  Forall (fun c => c.(ChunkDoc).(Path) <> d.(Path)) (GC (RemoveDocument g d)).(Chunks).
Proof.
  split; [| split; [reflexivity | split; [reflexivity |]]].
  - intros c. simpl. rewrite filter_In, referenced_spec. reflexivity.
  - destruct (RemoveDocument_Documents g d) as [[Hnone _] | (pre & d0 & post & Hds & Hp0 & _ & Hrem)].
    + exfalso. rewrite Forall_forall in Hnone. exact (Hnone d Hd eq_refl).
    + apply Forall_forall. intros c Hc Hcp.
      simpl in Hc. rewrite filter_In, referenced_spec, Hrem in Hc.
      destruct Hc as (_ & d' & Hin' & Hp').
      rewrite Hds, map_app in Hpaths. simpl in Hpaths.
      apply NoDup_remove_2 in Hpaths. apply Hpaths.
      rewrite <- map_app. apply in_map_iff. exists d'. split; [congruence | exact Hin'].
Qed.

(** *** Ranking *)

Section InsertionSorts.

Variable A : Type.
Variable key : A -> Z.

Let desc (a b : A) : Prop := key b <= key a.

Lemma insert_while_perm (skip : A -> bool) (x : A) (l : list A) :
  Permutation (insert_while skip x l) (x :: l).
Proof.
  induction l as [|y l IH]; simpl; [reflexivity |].
  destruct (skip y); [| reflexivity].
  etransitivity; [apply perm_skip, IH | apply perm_swap].
Qed.

Lemma insert_while_sorted (skip : A -> bool) (x : A) (l : list A) :
  (forall y, skip y = true -> key x <= key y) ->
  (forall y, skip y = false -> key y <= key x) ->
  Sorted desc l -> Sorted desc (insert_while skip x l).
Proof.
  intros Ht Hf Hs. induction Hs as [|y l Hs IH Hhd]; simpl.
  - repeat constructor.
  - destruct (skip y) eqn:E.
    + constructor; [exact IH |].
      destruct l as [|z l']; simpl.
      * constructor. apply Ht, E.
      * destruct (skip z); constructor.
        -- inversion Hhd; assumption.
        -- apply Ht, E.
    + constructor; [constructor; assumption |]. constructor. apply Hf, E.
Qed.

Lemma fold_insert_perm (skipf : A -> A -> bool) (l acc : list A) :
  Permutation (fold_left (fun acc x => insert_while (skipf x) x acc) l acc) (l ++ acc).
Proof.
  revert acc. induction l as [|x l IH]; intros acc; simpl; [reflexivity |].
  etransitivity; [apply IH |].
  etransitivity; [apply Permutation_app_head, insert_while_perm |].
  symmetry. apply Permutation_middle.
Qed.

Lemma fold_insert_sorted (skipf : A -> A -> bool) (l acc : list A) :
  (forall x y, skipf x y = true -> key x <= key y) ->
  (forall x y, skipf x y = false -> key y <= key x) ->
  Sorted desc acc ->
  Sorted desc (fold_left (fun acc x => insert_while (skipf x) x acc) l acc).
Proof.
  intros Ht Hf. revert acc. induction l as [|x l IH]; intros acc Hacc; simpl; auto.
  apply IH. apply insert_while_sorted; auto.
Qed.

End InsertionSorts.

Lemma insertion_sort_contract : SortSliceContract insertion_sort.
Proof.
  intros A key l. split.
  - unfold insertion_sort. rewrite fold_insert_perm, app_nil_r. reflexivity.
  - apply fold_insert_sorted; [| | constructor]; intros x y H.
    + apply negb_true_iff in H. rewrite Z.gtb_ltb, Z.ltb_ge in H. exact H.
    + apply negb_false_iff in H. rewrite Z.gtb_ltb, Z.ltb_lt in H. lia.
Qed.

Lemma Sorted_map_in {X Y : Type} (R : X -> X -> Prop) (R' : Y -> Y -> Prop)
    (f : X -> Y) (P : X -> Prop) (l : list X) :
  Forall P l -> (forall a b, P a -> P b -> R a b -> R' (f a) (f b)) ->
  Sorted R l -> Sorted R' (map f l).
Proof.
  intros HP HR Hs. induction Hs as [|a l Hs IH Hhd]; simpl; constructor.
  - apply IH. inversion HP; assumption.
  - destruct l as [|b l]; simpl; constructor.
    inversion Hhd; subst. inversion HP as [|? ? Ha Hl]; subst. inversion Hl; subst.
    apply HR; assumption.
Qed.

Lemma StronglySorted_app_between {X : Type} (R : X -> X -> Prop) (l1 l2 : list X) :
  StronglySorted R (l1 ++ l2) -> forall a b, In a l1 -> In b l2 -> R a b.
Proof.
  induction l1 as [|x l1 IH]; simpl; intros Hs a b Ha Hb; [contradiction |].
  inversion Hs as [|? ? Hs' Hall]; subst.
  destruct Ha as [<- | Ha].
  - rewrite Forall_forall in Hall. apply Hall, in_or_app. right. exact Hb.
  - apply IH; assumption.
Qed.

(** The sorted [sims] of [SimilarChunks]. *)
Definition ranked_sims (sort_Slice : SortSlice)
    (Similarity : list float64 -> list float64 -> Z) (g : Grokker)
    (embedding : list float64) : list Sim :=
  sort_Slice Sim (fun a b => a.(sim_score) >? b.(sim_score))
    (map (fun c => mkSim c (Similarity embedding c.(Embedding))) g.(Chunks)).

Lemma SimilarChunks_zero sort_Slice Similarity g embedding :
  SimilarChunks sort_Slice Similarity g embedding 0 =
  map sim_chunk (ranked_sims sort_Slice Similarity g embedding).
Proof.
  unfold SimilarChunks, ranked_sims. cbv zeta. simpl.
  rewrite Nat2Z.id, firstn_all. reflexivity.
Qed.

Lemma SimilarChunks_prefix sort_Slice Similarity g embedding K :
  K <> 0 ->
  SimilarChunks sort_Slice Similarity g embedding K =
  firstn (Z.to_nat K) (SimilarChunks sort_Slice Similarity g embedding 0).
Proof.
  intros HK. rewrite SimilarChunks_zero, firstn_map.
  unfold SimilarChunks, ranked_sims. cbv zeta.
  destruct (Z.eqb_spec K 0); [contradiction | reflexivity].
Qed.

Lemma SimilarChunks_zero_spec sort_Slice Similarity g embedding :
  SortSliceContract sort_Slice ->
  Permutation (SimilarChunks sort_Slice Similarity g embedding 0) g.(Chunks) /\
  Sorted (fun a b => Similarity embedding b.(Embedding) <= Similarity embedding a.(Embedding))
    (SimilarChunks sort_Slice Similarity g embedding 0).
Proof.
  intros Hsort. rewrite SimilarChunks_zero. unfold ranked_sims.
  destruct (Hsort Sim sim_score
              (map (fun c => mkSim c (Similarity embedding c.(Embedding))) g.(Chunks)))
    as [Hperm Hsorted].
  split.
  - etransitivity; [apply Permutation_map, Hperm |].
    rewrite map_map. simpl. rewrite map_id. reflexivity.
  - apply (Sorted_map_in (fun a b : Sim => sim_score b <= sim_score a) _ _
             (fun s => s.(sim_score) = Similarity embedding s.(sim_chunk).(Embedding)));
      [| | exact Hsorted].
    + apply Forall_forall. intros s Hs.
      apply (Permutation_in _ Hperm), in_map_iff in Hs.
      destruct Hs as (c & <- & _). reflexivity.
    + intros a b Ha Hb Hab. rewrite <- Ha, <- Hb. exact Hab.
Qed.

(** C2 (as amended): for any [sort.Slice] meeting its contract, [K = 0]
    returns all chunks (a permutation of the store's chunks) in
    non-increasing score order, and [K = N] with [0 < N <= len(Chunks)]
    returns [N] chunks, the first [N] of the [K = 0] ranking, none scoring
    below a chunk it leaves out.  The order among equal scores is the
    library sort's. *)
Theorem SimilarChunks_ranked (sort_Slice : SortSlice)
    (Similarity : list float64 -> list float64 -> Z) (g : Grokker)
    (embedding : list float64) (N : Z)
    (Hsort : SortSliceContract sort_Slice)
    (HN : 0 < N <= Z.of_nat (List.length g.(Chunks))) :
  let score c := Similarity embedding c.(Embedding) in
  let all := SimilarChunks sort_Slice Similarity g embedding 0 in
  Permutation all g.(Chunks) /\
  Sorted (fun a b => score b <= score a) all /\
  SimilarChunks sort_Slice Similarity g embedding N = firstn (Z.to_nat N) all /\
  List.length (SimilarChunks sort_Slice Similarity g embedding N) = Z.to_nat N /\
  (forall a b, In a (firstn (Z.to_nat N) all) -> In b (skipn (Z.to_nat N) all) ->
     score b <= score a).
Proof.
  cbv zeta.
  destruct (SimilarChunks_zero_spec sort_Slice Similarity g embedding Hsort) as [Hperm Hsorted].
  assert (Hpre := SimilarChunks_prefix sort_Slice Similarity g embedding N ltac:(lia)).
  split; [exact Hperm |]. split; [exact Hsorted |]. split; [exact Hpre |]. split.
  - rewrite Hpre, length_firstn, (Permutation_length Hperm). lia.
  - apply StronglySorted_app_between. rewrite firstn_skipn.
    apply Sorted_StronglySorted; [| exact Hsorted].
    intros x y z Hxy Hyz. lia.
Qed.

Lemma SimilarChunks_ranked_witness :
  let score c := first_value_score [] c.(Embedding) in
  let all := SimilarChunks insertion_sort first_value_score store_4000x3 [] 0 in
  Permutation all store_4000x3.(Chunks) /\
  Sorted (fun a b => score b <= score a) all /\
  SimilarChunks insertion_sort first_value_score store_4000x3 [] 2 = firstn (Z.to_nat 2) all /\
  List.length (SimilarChunks insertion_sort first_value_score store_4000x3 [] 2) = Z.to_nat 2 /\
  (forall a b, In a (firstn (Z.to_nat 2) all) -> In b (skipn (Z.to_nat 2) all) ->
     score b <= score a).
Proof.
  apply (SimilarChunks_ranked insertion_sort first_value_score store_4000x3 [] 2).
  - exact insertion_sort_contract.
  - vm_compute. split; [reflexivity | discriminate].
Defined.

(** C2 (counterexample): ties are not broken by store order.  Go documents
    [sort.Slice] as "not guaranteed to be stable".  With Go's own
    [sort.Slice] (pdqsort), the thirteen chunks of [store_tie13] (twelve
    equal scores, then a higher one) are ranked
    [c12; c6; c2; c3; c4; c5; c0; c7; ...; c11; c1]: [c6] comes before [c0]. *)
Lemma SimilarChunks_ties_not_in_store_order :
  ~ (forall Similarity g embedding,
       ties_in_store_order Similarity embedding g
         (SimilarChunks go_sort_Slice Similarity g embedding 0)).
Proof.
  intros H.
  specialize (H first_value_score store_tie13 []).
  assert (Hout : SimilarChunks go_sort_Slice first_value_score store_tie13 [] 0
                 = chunk_tie "c12" 1 ::
                   map (fun t => chunk_tie t 0)
                     ["c6"; "c2"; "c3"; "c4"; "c5"; "c0";
                      "c7"; "c8"; "c9"; "c10"; "c11"; "c1"]%string) by (vm_compute; reflexivity).
  destruct (H 0%nat 6%nat (chunk_tie "c0" 0) (chunk_tie "c6" 0))
    as (i' & j' & Hlt & Hi & Hj);
    [lia | reflexivity | reflexivity | discriminate | reflexivity |].
  rewrite Hout in Hi, Hj. cbv [map] in Hi, Hj.
  assert (Hi6 : (i' = 6)%nat).
  { clear -Hi.
    do 14 (destruct i' as [|i']; simpl in Hi; [first [reflexivity | discriminate] |]).
    discriminate. }
  assert (Hj1 : (j' = 1)%nat).
  { clear -Hj.
    do 14 (destruct j' as [|j']; simpl in Hj; [first [reflexivity | discriminate] |]).
    discriminate. }
  lia.
Qed.

(** C10: with [K] above the number of chunks, [SimilarChunks] returns the
    whole ranking, the same as [K = 0] and as [K = len(Chunks)]; on an empty
    chunk list it returns the empty list for every [K]. *)
Theorem SimilarChunks_K_beyond_count (sort_Slice : SortSlice)
    (Similarity : list float64 -> list float64 -> Z) (g : Grokker)
    (embedding : list float64) (K : Z)
    (Hsort : SortSliceContract sort_Slice)
    (HK : Z.of_nat (List.length g.(Chunks)) < K) :
  SimilarChunks sort_Slice Similarity g embedding K =
    SimilarChunks sort_Slice Similarity g embedding 0 /\
  SimilarChunks sort_Slice Similarity g embedding K =
    SimilarChunks sort_Slice Similarity g embedding (Z.of_nat (List.length g.(Chunks))) /\
  (g.(Chunks) = [] -> forall K', SimilarChunks sort_Slice Similarity g embedding K' = []).
Proof.
  destruct (SimilarChunks_zero_spec sort_Slice Similarity g embedding Hsort) as [Hperm _].
  assert (Hlen := Permutation_length Hperm).
  assert (HKall : SimilarChunks sort_Slice Similarity g embedding K =
                  SimilarChunks sort_Slice Similarity g embedding 0).
  { rewrite SimilarChunks_prefix by lia. apply firstn_all2. lia. }
  split; [exact HKall |]. split.
  - rewrite HKall.
    destruct (Z.eqb_spec (Z.of_nat (List.length g.(Chunks))) 0) as [H0 | H0].
    + rewrite H0. reflexivity.
    + rewrite (SimilarChunks_prefix _ _ _ _ _ H0), Nat2Z.id, firstn_all2 by lia.
      reflexivity.
  - intros Hnil K'. rewrite Hnil in Hperm.
    apply Permutation_sym, Permutation_nil in Hperm.
    destruct (Z.eqb_spec K' 0) as [-> | HK'].
    + exact Hperm.
    + rewrite SimilarChunks_prefix by exact HK'. rewrite Hperm. apply firstn_nil.
Qed.

Lemma SimilarChunks_K_beyond_count_witness :
  SimilarChunks insertion_sort first_value_score store_4000x3 [] 5 =
    SimilarChunks insertion_sort first_value_score store_4000x3 [] 0 /\
  SimilarChunks insertion_sort first_value_score store_4000x3 [] 5 =
    SimilarChunks insertion_sort first_value_score store_4000x3 []
      (Z.of_nat (List.length store_4000x3.(Chunks))) /\
  (store_4000x3.(Chunks) = [] ->
   forall K', SimilarChunks insertion_sort first_value_score store_4000x3 [] K' = []).
Proof.
  apply (SimilarChunks_K_beyond_count insertion_sort first_value_score store_4000x3 [] 5).
  - exact insertion_sort_contract.
  - vm_compute. reflexivity.
Defined.

(** *** Batching *)

Lemma create_embeddings_loop_cons (fuel : nat) (client : EmbedClient) (texts : list string) :
  texts <> [] ->
  create_embeddings_loop (S fuel) client texts =
  match client (firstn 100 texts) with
  | None => ([firstn 100 texts], None)
  | Some es =>
      let '(reqs, r) := create_embeddings_loop fuel client (skipn 100 texts) in
      (firstn 100 texts :: reqs, match r with Some rest => Some (es ++ rest) | None => None end)
  end.
Proof. destruct texts; [congruence | reflexivity]. Qed.

Lemma create_embeddings_loop_spec (client : EmbedClient) (f : string -> list float64) :
  (forall batch, client batch = Some (map f batch)) ->
  forall fuel texts, (List.length texts <= fuel)%nat ->
  let '(reqs, r) := create_embeddings_loop fuel client texts in
  List.concat reqs = texts /\
  Forall (fun b => (1 <= List.length b <= 100)%nat) reqs /\
  Forall (fun b => List.length b = 100%nat) (removelast reqs) /\
  r = Some (map f texts) /\
  map (@List.length string) reqs = batch_sizes fuel (List.length texts).
Proof.
  intros Hclient fuel. induction fuel as [|fuel IH]; intros texts Hlen.
  - destruct texts; [| simpl in Hlen; lia]. simpl. repeat split; constructor.
  - destruct texts as [|t ts] eqn:Et.
    + simpl. repeat split; constructor.
    + rewrite <- Et. rewrite create_embeddings_loop_cons by (subst; discriminate).
      rewrite Hclient.
      assert (Hrest : (List.length (skipn 100 texts) <= fuel)%nat)
        by (rewrite length_skipn; subst; simpl in *; lia).
      specialize (IH _ Hrest).
      destruct (create_embeddings_loop fuel client (skipn 100 texts)) as [reqs r].
      destruct IH as (Hcat & Hsz & Hfull & Hr & Hmap).
      assert (Hne : texts <> []) by (subst; discriminate).
      assert (Hb : (1 <= List.length (firstn 100 texts) <= 100)%nat).
      { rewrite length_firstn, Et. cbn [List.length].
        split; [apply Nat.min_glb; lia | apply Nat.le_min_l]. }
      split; [| split; [| split; [| split]]].
      * cbn [List.concat]. rewrite Hcat. apply firstn_skipn.
      * constructor; assumption.
      * destruct reqs as [|b reqs'] eqn:Er; [constructor |].
        change (removelast (firstn 100 texts :: b :: reqs'))
          with (firstn 100 texts :: removelast (b :: reqs')).
        constructor; [| exact Hfull].
        inversion Hsz as [|? ? Hb1 _]; subst b.
        assert (Hlong : (1 <= List.length (skipn 100 texts))%nat).
        { rewrite <- Hcat. simpl. rewrite length_app. lia. }
        rewrite length_skipn in Hlong. rewrite length_firstn. apply Nat.min_l. lia.
      * rewrite Hr, <- map_app, firstn_skipn. reflexivity.
      * cbn [map]. rewrite Hmap, length_skipn.
        rewrite length_firstn, Et. reflexivity.
Qed.

(** C7: [CreateEmbeddings] sends the texts in successive batches of at most
    100 (all full but the last, their concatenation the input) and, with a
    provider answering one embedding per text in order, returns one
    embedding per text in input order; 250 texts go out as batches of 100,
    100 and 50. *)
Theorem CreateEmbeddings_batches (client : EmbedClient) (f : string -> list float64)
    (texts : list string)
    (Hclient : forall batch, client batch = Some (map f batch)) :
  let reqs := fst (CreateEmbeddings client texts) in
  List.concat reqs = texts /\
  Forall (fun b => (1 <= List.length b <= 100)%nat) reqs /\
  Forall (fun b => List.length b = 100%nat) (removelast reqs) /\
  snd (CreateEmbeddings client texts) = Some (map f texts) /\
  (List.length texts = 250%nat -> map (@List.length string) reqs = [100; 100; 50]%nat).
Proof.
  cbv zeta. unfold CreateEmbeddings.
  pose proof (create_embeddings_loop_spec client f Hclient (List.length texts) texts
                (Nat.le_refl _)) as Hspec.
  destruct (create_embeddings_loop (List.length texts) client texts) as [reqs r].
  destruct Hspec as (H1 & H2 & H3 & H4 & H5).
  simpl. repeat split; auto.
  intros H250. rewrite H5, H250. reflexivity.
Qed.

Lemma CreateEmbeddings_batches_witness :
  let reqs := fst (CreateEmbeddings length_client (repeat "t"%string 250)) in
  List.concat reqs = repeat "t"%string 250 /\
  Forall (fun b => (1 <= List.length b <= 100)%nat) reqs /\
  Forall (fun b => List.length b = 100%nat) (removelast reqs) /\
  snd (CreateEmbeddings length_client (repeat "t"%string 250)) =
    Some (map (fun s => [Finite (Z.of_nat (String.length s)) 0]) (repeat "t"%string 250)) /\
  (List.length (repeat "t"%string 250) = 250%nat ->
   map (@List.length string) reqs = [100; 100; 50]%nat).
Proof.
  apply (CreateEmbeddings_batches length_client
           (fun s => [Finite (Z.of_nat (String.length s)) 0])).
  intros batch. reflexivity.
Defined.

Lemma GC_keeps_exactly_referenced_witness :
  (forall c, In c (GC store_abc_chunks).(Chunks) <->
     In c store_abc_chunks.(Chunks) /\
     exists d', In d' store_abc_chunks.(Documents) /\ d'.(Path) = c.(ChunkDoc).(Path)) /\
  (GC store_abc_chunks).(Chunks) = filter (referenced store_abc_chunks.(Documents)) store_abc_chunks.(Chunks) /\
  (GC store_abc_chunks).(Documents) = store_abc_chunks.(Documents) /\
  Forall (fun c => c.(ChunkDoc).(Path) <> (mkDocument "b.txt").(Path))
    (GC (RemoveDocument store_abc_chunks (mkDocument "b.txt"))).(Chunks).
Proof.
  apply (GC_keeps_exactly_referenced store_abc_chunks (mkDocument "b.txt")).
  - simpl. right. left. reflexivity.
  - vm_compute. repeat constructor; simpl; intuition discriminate.
Defined.

(** *** UpdateDocument *)

Definition texts (cs : list Chunk) : list string := map Text cs.

Definition count_text (t : string) (l : list string) : nat := count_occ string_dec l t.

Lemma Chunks_set_Chunks (g : Grokker) (cs : list Chunk) : (set_Chunks g cs).(Chunks) = cs.
Proof. reflexivity. Qed.

Lemma MaxChunkSize_set_Chunks (g : Grokker) (cs : list Chunk) :
  (set_Chunks g cs).(MaxChunkSize) = g.(MaxChunkSize).
Proof. reflexivity. Qed.

Lemma chunkStrings_MaxChunkSize (fs : FS) (g g' : Grokker) (doc : Document) :
  g'.(MaxChunkSize) = g.(MaxChunkSize) -> chunkStrings fs g' doc = chunkStrings fs g doc.
Proof. intros H. unfold chunkStrings. rewrite H. reflexivity. Qed.

Lemma has_text_In (t : string) (cs : list Chunk) :
  has_text t cs = true <-> In t (texts cs).
Proof.
  unfold has_text, texts. rewrite existsb_exists, in_map_iff. split.
  - intros (c & Hc & Ht). apply String.eqb_eq in Ht. exists c. auto.
  - intros (c & Ht & Hc). exists c. split; [exact Hc | apply String.eqb_eq; exact Ht].
Qed.

Lemma count_remove_first_text (s t : string) (cs : list Chunk) :
  has_text s cs = true ->
  count_text t (texts cs) =
  (count_text t (texts (remove_first_text s cs)) + (if string_dec s t then 1 else 0))%nat.
Proof.
  unfold count_text, texts. induction cs as [|c cs IH]; [discriminate|].
  simpl. destruct (String.eqb (Text c) s) eqn:Hcs.
  - intros _. apply String.eqb_eq in Hcs. subst s.
    destruct (string_dec (Text c) t); lia.
  - intros Hs. simpl in Hs.
    simpl. rewrite (IH Hs). destruct (string_dec (Text c) t); lia.
Qed.

(** Every string handled by the loop is either matched with an old chunk
    or appended to [newChunkStrings]. *)
Lemma diff_chunks_count (old : list Chunk) (strs news : list string) (upd : bool)
    old' news' upd' (t : string) :
  diff_chunks old strs news upd = (old', news', upd') ->
  (count_text t strs + count_text t (texts old') + count_text t news =
   count_text t (texts old) + count_text t news')%nat.
Proof.
  revert old news upd. induction strs as [|s strs IH]; intros old news upd Hd.
  - simpl in Hd. injection Hd as <- <- <-. reflexivity.
  - simpl in Hd. destruct (has_text s old) eqn:Hs.
    + specialize (IH _ _ _ Hd).
      rewrite (count_remove_first_text s t old Hs).
      unfold count_text in *. simpl. destruct (string_dec s t); lia.
    + specialize (IH _ _ _ Hd).
      unfold count_text in *. rewrite count_occ_app in IH. simpl in *.
      destruct (string_dec s t); lia.
Qed.

(** When the old chunks cover the strings as a multiset, nothing is new. *)
Lemma diff_chunks_covered (old : list Chunk) (strs news : list string) (upd : bool) :
  (forall t, count_text t strs <= count_text t (texts old))%nat ->
  exists old', diff_chunks old strs news upd = (old', news, upd).
Proof.
  revert old. induction strs as [|s strs IH]; intros old Hcov.
  - exists old. reflexivity.
  - simpl. assert (Hs : has_text s old = true).
    { apply has_text_In. unfold count_text in Hcov.
      apply (count_occ_In string_dec). specialize (Hcov s). simpl in Hcov.
      destruct (string_dec s s); [lia | congruence]. }
    rewrite Hs. apply IH. intros t. specialize (Hcov t).
    rewrite (count_remove_first_text s t old Hs) in Hcov.
    unfold count_text in *. simpl in Hcov. destruct (string_dec s t); lia.
Qed.

Lemma new_chunks_spec (doc : Document) (ts : list string) (es : list (list float64))
    (ncs : list Chunk) :
  new_chunks doc ts es = Some ncs ->
  texts ncs = ts /\ Forall (fun c => c.(ChunkDoc) = doc) ncs.
Proof.
  revert es ncs. induction ts as [|t ts IH]; intros es ncs H.
  - simpl in H. injection H as <-. split; [reflexivity | constructor].
  - destruct es as [|e es]; [discriminate|]. simpl in H.
    destruct (new_chunks doc ts es) as [cs|] eqn:Hn; [|discriminate].
    injection H as <-. destruct (IH _ _ Hn) as [H1 H2].
    split; [simpl; rewrite H1; reflexivity | constructor; [reflexivity | exact H2]].
Qed.

Lemma doc_chunks_app (p : string) (l1 l2 : list Chunk) :
  doc_chunks p (l1 ++ l2) = doc_chunks p l1 ++ doc_chunks p l2.
Proof. unfold doc_chunks. apply filter_app. Qed.

Lemma doc_chunks_own (doc : Document) (ncs : list Chunk) :
  Forall (fun c => c.(ChunkDoc) = doc) ncs -> doc_chunks doc.(Path) ncs = ncs.
Proof.
  induction 1 as [|c cs Hc _ IH]; [reflexivity|].
  unfold doc_chunks in *. simpl. rewrite Hc, String.eqb_refl, IH. reflexivity.
Qed.

(** The shape of a successful [UpdateDocument]. *)
Lemma UpdateDocument_shape (client : EmbedClient) (fs : FS) (g g' : Grokker)
    (doc : Document) (reqs : list (list string)) (upd : bool) :
  UpdateDocument client fs g doc = (reqs, Some (g', upd)) ->
  exists cs old' news es ncs,
    chunkStrings fs g doc = Some cs /\
    diff_chunks (doc_chunks doc.(Path) g.(Chunks)) cs [] false = (old', news, upd) /\
    CreateEmbeddings client news = (reqs, Some es) /\
    new_chunks doc news es = Some ncs /\
    g' = set_Chunks g (g.(Chunks) ++ ncs).
Proof.
  unfold UpdateDocument. intros H.
  destruct (chunkStrings fs g doc) as [cs|] eqn:Hcs; [|discriminate].
  destruct (diff_chunks (doc_chunks (Path doc) (Chunks g)) cs [] false)
    as [[old' news] upd0] eqn:Hd.
  destruct (CreateEmbeddings client news) as [reqs0 r] eqn:Hce.
  destruct r as [es|]; [|discriminate].
  destruct (new_chunks doc news es) as [ncs|] eqn:Hn; [|discriminate].
  injection H as <- <- <-.
  exists cs, old', news, es, ncs. auto.
Qed.

(** C4: once [UpdateDocument] has succeeded, running it again on the same
    file text sends no embedding request and leaves the store as it is,
    with [updated = false]. *)
Theorem UpdateDocument_unchanged_is_noop (client : EmbedClient) (fs : FS)
    (g g1 : Grokker) (doc : Document) (reqs1 : list (list string)) (updated1 : bool)
    (Hfirst : UpdateDocument client fs g doc = (reqs1, Some (g1, updated1))) :
  UpdateDocument client fs g1 doc = ([], Some (g1, false)).
Proof.
  destruct (UpdateDocument_shape _ _ _ _ _ _ _ Hfirst)
    as (cs & old' & news & es & ncs & Hcs & Hd & _ & Hn & ->).
  destruct (new_chunks_spec _ _ _ _ Hn) as [Htexts Hown].
  unfold UpdateDocument.
  rewrite (chunkStrings_MaxChunkSize fs g), Hcs by apply MaxChunkSize_set_Chunks.
  rewrite Chunks_set_Chunks, doc_chunks_app, (doc_chunks_own doc ncs Hown).
  destruct (diff_chunks_covered (doc_chunks (Path doc) (Chunks g) ++ ncs) cs [] false)
    as [old2 Hd2].
  { intros t. pose proof (diff_chunks_count _ _ _ _ _ _ _ t Hd) as Hc.
    unfold texts at 1. rewrite map_app. change (map Text ncs) with (texts ncs). rewrite Htexts.
    unfold count_text in *. rewrite count_occ_app. simpl in Hc. unfold texts in Hc. lia. }
  rewrite Hd2. simpl. rewrite app_nil_r. reflexivity.
Qed.

Lemma UpdateDocument_unchanged_is_noop_witness :
  UpdateDocument length_client (fs_text text_one_two_one) store_doc_a (mkDocument "a") =
    ([["one"; "two"; "one"]%string], Some (store_one_two_one, true)) /\
  UpdateDocument length_client (fs_text text_one_two_one) store_one_two_one (mkDocument "a") =
    ([], Some (store_one_two_one, false)).
Proof.
  split.
  - vm_compute. reflexivity.
  - apply (UpdateDocument_unchanged_is_noop length_client (fs_text text_one_two_one)
             store_doc_a store_one_two_one (mkDocument "a")
             [["one"; "two"; "one"]%string] true).
    vm_compute. reflexivity.
Defined.

(** *** Deduplication across store operations *)

Lemma has_text_remove_other (x s : string) (cs : list Chunk) :
  x <> s -> has_text x (remove_first_text s cs) = has_text x cs.
Proof.
  intros Hxs. induction cs as [|c cs IH]; [reflexivity|].
  simpl. destruct (String.eqb (Text c) s) eqn:Hcs.
  - apply String.eqb_eq in Hcs. unfold has_text. simpl.
    assert (Hx : String.eqb (Text c) x = false)
      by (apply String.eqb_neq; rewrite Hcs; auto).
    rewrite Hx. reflexivity.
  - unfold has_text in *. simpl. rewrite IH. reflexivity.
Qed.

(** With distinct segments, [newChunkStrings] is exactly the segments no
    old chunk has, in order. *)
Lemma diff_chunks_news (old : list Chunk) (strs news : list string) (upd : bool)
    old' news' upd' :
  NoDup strs ->
  diff_chunks old strs news upd = (old', news', upd') ->
  news' = news ++ filter (fun s => negb (has_text s old)) strs.
Proof.
  revert old news upd. induction strs as [|s strs IH]; intros old news upd Hnd Hd.
  - simpl in Hd. injection Hd as _ <- _. rewrite app_nil_r. reflexivity.
  - apply NoDup_cons_iff in Hnd as [Hs Hnd]. simpl in Hd. simpl.
    destruct (has_text s old) eqn:Hhas; simpl.
    + rewrite (IH _ _ _ Hnd Hd). f_equal. apply filter_ext_in.
      intros x Hx. rewrite has_text_remove_other; [reflexivity|].
      intros ->. contradiction.
    + rewrite (IH _ _ _ Hnd Hd), <- app_assoc. reflexivity.
Qed.

Lemma NoDup_map_filter {X Y : Type} (h : X -> Y) (f : X -> bool) (l : list X) :
  NoDup (map h l) -> NoDup (map h (filter f l)).
Proof.
  induction l as [|x l IH]; intros Hnd; [constructor|].
  simpl in Hnd. apply NoDup_cons_iff in Hnd as [Hx Hnd].
  simpl. destruct (f x); [|auto].
  simpl. constructor; [|auto].
  intros Hin. apply Hx. apply in_map_iff in Hin as (y & Hy & Hin).
  apply filter_In in Hin as [Hin _]. rewrite <- Hy. apply in_map. exact Hin.
Qed.

Lemma NoDup_map_pair (p : string) (l : list string) :
  NoDup l -> NoDup (map (fun t => (p, t)) l).
Proof.
  induction 1 as [|t l Ht _ IH]; simpl; constructor; [|exact IH].
  intros Hin. apply in_map_iff in Hin as (u & Hu & Hin).
  injection Hu as ->. contradiction.
Qed.

Lemma chunk_keys_own (doc : Document) (ncs : list Chunk) :
  Forall (fun c => c.(ChunkDoc) = doc) ncs ->
  map chunk_key ncs = map (fun t => (doc.(Path), t)) (texts ncs).
Proof.
  induction 1 as [|c cs Hc _ IH]; [reflexivity|].
  simpl. rewrite IH. unfold chunk_key. rewrite Hc. reflexivity.
Qed.

Lemma segments_distinct_MaxChunkSize (fs : FS) (g g' : Grokker) :
  g'.(MaxChunkSize) = g.(MaxChunkSize) -> segments_distinct fs g -> segments_distinct fs g'.
Proof.
  intros H Hs doc cs Hc. apply (Hs doc).
  rewrite <- (chunkStrings_MaxChunkSize fs g g' doc H). exact Hc.
Qed.

Lemma UpdateDocument_keeps_unique (client : EmbedClient) (fs : FS) (g g' : Grokker)
    (doc : Document) (reqs : list (list string)) (upd : bool) :
  chunk_texts_unique g -> segments_distinct fs g ->
  UpdateDocument client fs g doc = (reqs, Some (g', upd)) ->
  chunk_texts_unique g'.
Proof.
  intros Huniq Hseg H.
  destruct (UpdateDocument_shape _ _ _ _ _ _ _ H)
    as (cs & old' & news & es & ncs & Hcs & Hd & _ & Hn & ->).
  pose proof (Hseg doc cs Hcs) as Hnd.
  pose proof (diff_chunks_news _ _ _ _ _ _ _ Hnd Hd) as Hnews. simpl in Hnews.
  destruct (new_chunks_spec _ _ _ _ Hn) as [Htexts Hown].
  unfold chunk_texts_unique. rewrite Chunks_set_Chunks, map_app.
  rewrite (chunk_keys_own doc ncs Hown), Htexts.
  apply NoDup_app; [exact Huniq | |].
  - apply NoDup_map_pair. rewrite Hnews. apply NoDup_filter. exact Hnd.
  - intros a Ha Hb.
    apply in_map_iff in Ha as (c & <- & Hc).
    apply in_map_iff in Hb as (t & Ht & Hin).
    unfold chunk_key in Ht. injection Ht as Hp Ht.
    rewrite Hnews in Hin. apply filter_In in Hin as [_ Hneg].
    assert (Hhas : has_text t (doc_chunks (Path doc) (Chunks g)) = true).
    { apply has_text_In. unfold texts. apply in_map_iff. exists c. split; [symmetry; exact Ht|].
      apply filter_In. split; [exact Hc | apply String.eqb_eq; symmetry; exact Hp]. }
    rewrite Hhas in Hneg. discriminate.
Qed.

Lemma RemoveDocument_Chunks_MaxChunkSize (g : Grokker) (doc : Document) :
  (RemoveDocument g doc).(Chunks) = g.(Chunks) /\
  (RemoveDocument g doc).(MaxChunkSize) = g.(MaxChunkSize).
Proof.
  unfold RemoveDocument.
  destruct (RemoveDocument_slice (Documents g) (List.length (Documents g)) doc).
  split; reflexivity.
Qed.

Lemma UpdateDocument_MaxChunkSize (client : EmbedClient) (fs : FS) (g g' : Grokker)
    (doc : Document) (reqs : list (list string)) (upd : bool) :
  UpdateDocument client fs g doc = (reqs, Some (g', upd)) ->
  g'.(MaxChunkSize) = g.(MaxChunkSize).
Proof.
  intros H. destruct (UpdateDocument_shape _ _ _ _ _ _ _ H)
    as (cs & old' & news & es & ncs & _ & _ & _ & _ & ->).
  reflexivity.
Qed.

Lemma run_op_invariant (client : EmbedClient) (fs : FS) (g : Grokker) (op : StoreOp) :
  chunk_texts_unique g -> segments_distinct fs g ->
  (run_op client fs g op).(MaxChunkSize) = g.(MaxChunkSize) /\
  chunk_texts_unique (run_op client fs g op).
Proof.
  intros Huniq Hseg. destruct op as [path | doc | doc |]; simpl.
  - unfold AddDocument.
    set (g1 := if existsb (fun d => String.eqb d.(Path) path) g.(Documents) then g
               else set_Documents g (g.(Documents) ++ [mkDocument path])).
    assert (Hg1 : g1.(Chunks) = g.(Chunks) /\ g1.(MaxChunkSize) = g.(MaxChunkSize))
      by (unfold g1; destruct existsb; split; reflexivity).
    destruct Hg1 as [Hc1 Hm1].
    assert (Hu1 : chunk_texts_unique g1) by (unfold chunk_texts_unique; rewrite Hc1; exact Huniq).
    assert (Hs1 : segments_distinct fs g1) by (apply (segments_distinct_MaxChunkSize fs g); auto).
    destruct (UpdateDocument client fs g1 (mkDocument path)) as [reqs r] eqn:Hu.
    destruct r as [[g2 upd]|]; simpl.
    + split.
      * rewrite (UpdateDocument_MaxChunkSize _ _ _ _ _ _ _ Hu). exact Hm1.
      * exact (UpdateDocument_keeps_unique _ _ _ _ _ _ _ Hu1 Hs1 Hu).
    + split; [exact Hm1 | exact Hu1].
  - destruct (UpdateDocument client fs g doc) as [reqs r] eqn:Hu.
    destruct r as [[g2 upd]|]; simpl.
    + split; [exact (UpdateDocument_MaxChunkSize _ _ _ _ _ _ _ Hu)
             | exact (UpdateDocument_keeps_unique _ _ _ _ _ _ _ Huniq Hseg Hu)].
    + split; [reflexivity | exact Huniq].
  - destruct (RemoveDocument_Chunks_MaxChunkSize g doc) as [Hc Hm].
    split; [exact Hm|]. unfold chunk_texts_unique. rewrite Hc. exact Huniq.
  - split; [reflexivity|]. unfold chunk_texts_unique, GC. rewrite Chunks_set_Chunks.
    apply NoDup_map_filter. exact Huniq.
Qed.

(** C3 (as stated): a file whose text repeats a paragraph gives its
    document two chunks with the same text; [UpdateDocument] matches the
    segments against the old chunks as a multiset and never removes
    repeats. *)
Lemma AddDocument_repeated_paragraph_duplicates :
  ~ (forall client fs ops, chunk_texts_unique (run_ops client fs New ops)).
Proof.
  intros H.
  specialize (H length_client (fs_text (String.append "x" (String.append sep "x")))
                [OpAddDocument "a"]).
  unfold chunk_texts_unique in H. vm_compute in H.
  inversion H as [|? ? Hin _]. apply Hin. left. reflexivity.
Qed.

(** C3 (amended): when the store starts without two chunks of one document
    sharing a text, and the chunker never yields the same segment twice for
    a document (no repeated paragraph or slice), every sequence of
    [AddDocument], [UpdateDocument], [RemoveDocument] and [GC] keeps it so. *)
Theorem store_ops_keep_chunk_texts_unique (client : EmbedClient) (fs : FS)
    (g : Grokker) (ops : list StoreOp)
    (Huniq : chunk_texts_unique g) (Hseg : segments_distinct fs g) :
  chunk_texts_unique (run_ops client fs g ops).
Proof.
  unfold run_ops. revert g Huniq Hseg.
  induction ops as [|op ops IH]; intros g Huniq Hseg; [exact Huniq|].
  simpl. destruct (run_op_invariant client fs g op Huniq Hseg) as [Hm Hu].
  apply IH; [exact Hu|]. exact (segments_distinct_MaxChunkSize fs g _ Hm Hseg).
Qed.

Lemma store_ops_keep_chunk_texts_unique_witness :
  chunk_texts_unique New /\
  segments_distinct (fs_text (String.append "x" (String.append sep "y"))) New /\
  chunk_texts_unique
    (run_ops length_client (fs_text (String.append "x" (String.append sep "y"))) New
       [OpAddDocument "a"; OpAddDocument "b"; OpUpdateDocument (mkDocument "a");
        OpRemoveDocument (mkDocument "b"); OpGC]).
Proof.
  assert (Hseg : segments_distinct (fs_text (String.append "x" (String.append sep "y"))) New).
  { intros doc cs Hc. vm_compute in Hc. injection Hc as <-.
    constructor; [simpl; intuition discriminate|]. constructor; [simpl; tauto|]. constructor. }
  split; [constructor|]. split; [exact Hseg|].
  apply store_ops_keep_chunk_texts_unique; [constructor | exact Hseg].
Defined.

(** *** Save and Load *)

Lemma substring_all (s : string) (m : nat) :
  (String.length s <= m)%nat -> substring 0 m s = s.
Proof.
  revert m. induction s as [|a s IH]; intros m Hm.
  - destruct m; reflexivity.
  - destruct m as [|m]; simpl in Hm; [lia|]. simpl. rewrite IH by lia. reflexivity.
Qed.

Lemma substring_split (s : string) (k m : nat) :
  (String.length s <= k + m)%nat ->
  String.append (substring 0 k s) (substring k m s) = s.
Proof.
  revert k. induction s as [|a s IH]; intros k Hk.
  - destruct k, m; reflexivity.
  - destruct k as [|k].
    + apply substring_all. exact Hk.
    + simpl in Hk. simpl. rewrite IH by lia. reflexivity.
Qed.

Lemma coerce_utf8_fuel_valid (fuel : nat) (s : string) :
  valid_utf8_fuel fuel s = true -> coerce_utf8_fuel fuel s = s.
Proof.
  revert s. induction fuel as [|fuel IH]; intros s Hv; [reflexivity|].
  destruct s as [|a rest]; [reflexivity|].
  simpl in Hv |- *. destruct (utf8_rune_len (String a rest)) as [k|]; [|discriminate].
  rewrite (IH _ Hv). unfold str_drop.
  exact (substring_split (String a rest) k _ (Nat.le_add_l _ _)).
Qed.

Lemma coerce_utf8_valid (s : string) : valid_utf8 s = true -> coerce_utf8 s = s.
Proof. apply coerce_utf8_fuel_valid. Qed.

Lemma marshal_floats_finite (l : list float64) :
  Forall (fun f => finite f = true) l -> marshal_floats l = Some (map JFloat l).
Proof.
  induction 1 as [|f l Hf _ IH]; [reflexivity|].
  simpl. unfold marshal_float. rewrite Hf, IH. reflexivity.
Qed.

Lemma unmarshal_floats (l : list float64) :
  unmarshal_list unmarshal_float (map JFloat l) = Some l.
Proof. induction l as [|f l IH]; [reflexivity|]. simpl. rewrite IH. reflexivity. Qed.

Lemma unmarshal_marshal_document (d : Document) :
  valid_utf8 d.(Path) = true -> unmarshal_document (marshal_document d) = Some d.
Proof.
  intros Hv. unfold marshal_document. rewrite coerce_utf8_valid by exact Hv.
  destruct d. reflexivity.
Qed.

Lemma unmarshal_marshal_documents (ds : list Document) :
  Forall (fun d => valid_utf8 d.(Path) = true) ds ->
  unmarshal_list unmarshal_document (map marshal_document ds) = Some ds.
Proof.
  induction 1 as [|d ds Hd _ IH]; [reflexivity|].
  cbn [map unmarshal_list]. rewrite unmarshal_marshal_document by exact Hd. rewrite IH. reflexivity.
Qed.

Lemma marshal_chunks_roundtrip (cs : list Chunk) :
  Forall (fun c => valid_utf8 c.(ChunkDoc).(Path) = true /\ valid_utf8 c.(Text) = true /\
                   Forall (fun f => finite f = true) c.(Embedding)) cs ->
  exists js, marshal_chunks cs = Some js /\ unmarshal_list unmarshal_chunk js = Some cs.
Proof.
  induction 1 as [|c cs (Hp & Ht & He) _ (js & Hjs & Hun)].
  - exists []. split; reflexivity.
  - destruct c as [d t e]. simpl in Hp, Ht, He.
    simpl. unfold marshal_chunk. cbn [Embedding]. rewrite (marshal_floats_finite e He), Hjs.
    eexists. split; [reflexivity|].
    unfold marshal_document. cbn [ChunkDoc Text Embedding]. rewrite (coerce_utf8_valid _ Hp), (coerce_utf8_valid t Ht).
    simpl. rewrite unmarshal_floats, Hun. destruct d. reflexivity.
Qed.

Lemma marshal_floats_spec (l : list float64) :
  marshal_floats l = if forallb finite l then Some (map JFloat l) else None.
Proof.
  induction l as [|f l IH]; [reflexivity|].
  simpl. unfold marshal_float. rewrite IH.
  destruct (finite f), (forallb finite l); reflexivity.
Qed.

Lemma marshal_chunks_spec (cs : list Chunk) :
  marshal_chunks cs =
  if forallb (fun c => forallb finite c.(Embedding)) cs then
    Some (map (fun c => JObject [("Document"%string, marshal_document c.(ChunkDoc));
                                 ("Text"%string, JString (coerce_utf8 c.(Text)));
                                 ("Embedding"%string, JArray (map JFloat c.(Embedding)))]) cs)
  else None.
Proof.
  induction cs as [|c cs IH]; [reflexivity|].
  simpl. unfold marshal_chunk. rewrite marshal_floats_spec, IH.
  destruct (forallb finite (Embedding c)), (forallb _ cs); reflexivity.
Qed.

Lemma forallb_false_In {A : Type} (f : A -> bool) (l : list A) :
  forallb f l = false -> exists x, In x l /\ f x = false.
Proof.
  induction l as [|x l IH]; [discriminate|].
  simpl. destruct (f x) eqn:Hx; simpl; intros H.
  - destruct (IH H) as (y & Hy & Hfy). eauto.
  - eauto.
Qed.

Lemma unmarshal_coerce_documents (ds : list Document) :
  unmarshal_list unmarshal_document (map marshal_document ds) = Some (map coerce_document ds).
Proof. induction ds as [|d ds IH]; [reflexivity|]. simpl. rewrite IH. reflexivity. Qed.

Lemma unmarshal_coerce_chunks (cs : list Chunk) (js : list json) :
  marshal_chunks cs = Some js -> unmarshal_list unmarshal_chunk js = Some (map coerce_chunk cs).
Proof.
  rewrite marshal_chunks_spec.
  destruct (forallb _ cs); [|discriminate]. intros H; injection H as <-.
  induction cs as [|c cs IH]; [reflexivity|].
  cbn [map unmarshal_list]. rewrite IH. simpl. rewrite unmarshal_floats. reflexivity.
Qed.

Lemma Load_of_Save (g : Grokker) (j : json) (Hsave : Save g = Some j) :
  Load j = Some (coerce_store g).
Proof.
  unfold Save, Marshal in Hsave.
  destruct (marshal_chunks (Chunks g)) as [js|] eqn:Hjs; [|discriminate].
  destruct (marshal_float (CharsPerToken g)) as [cpt|] eqn:Hf; [|discriminate].
  injection Hsave as <-. unfold marshal_float in Hf.
  destruct (finite (CharsPerToken g)); [|discriminate]. injection Hf as <-.
  unfold Load. simpl.
  rewrite unmarshal_coerce_documents, (unmarshal_coerce_chunks _ _ Hjs).
  reflexivity.
Qed.

Lemma Marshal_fails_iff (g : Grokker) :
  Marshal g = None <->
  finite g.(CharsPerToken) = false \/
  exists c f, In c g.(Chunks) /\ In f c.(Embedding) /\ finite f = false.
Proof.
  unfold Marshal. rewrite marshal_chunks_spec. unfold marshal_float.
  destruct (forallb (fun c => forallb finite (Embedding c)) (Chunks g)) eqn:Hc.
  - rewrite forallb_forall in Hc.
    destruct (finite (CharsPerToken g)) eqn:Hf.
    + split; [discriminate|]. intros [H|(c & f & Hin & Hinf & Hff)]; [discriminate|].
      specialize (Hc c Hin). rewrite forallb_forall in Hc. rewrite (Hc f Hinf) in Hff. discriminate.
    + split; [intros _; left; reflexivity|reflexivity].
  - split; [intros _|reflexivity]. right.
    destruct (forallb_false_In _ _ Hc) as (c & Hin & Hc').
    destruct (forallb_false_In _ _ Hc') as (f & Hinf & Hff).
    exists c, f. auto.
Qed.

(** C8 (as stated): a chunk text that is not valid UTF-8 comes back from
    [Save] then [Load] with the byte replaced by U+FFFD. *)
Lemma Save_Load_replaces_invalid_utf8 :
  ~ (forall g j, Save g = Some j -> Load j = Some g).
Proof.
  intros H. specialize (H store_invalid_text).
  destruct (Save store_invalid_text) as [j|] eqn:Hs; [|vm_compute in Hs; discriminate].
  specialize (H j eq_refl). vm_compute in Hs. injection Hs as <-.
  vm_compute in H. discriminate.
Qed.

(** C8 (amended): a store whose strings are all valid UTF-8 and whose
    floats are all finite is saved, and loading what was saved gives the
    same store back: documents, chunks (document path, text, embedding),
    [MaxChunkSize], [CharsPerToken] and [Root].  Whatever the store, what
    [Load] reads back from [Save] has every string passed through
    [coerce_utf8] (each byte that does not start a valid UTF-8 sequence
    replaced by U+FFFD, valid sequences kept).  A non-finite float
    ([CharsPerToken] or a value of an embedding) makes [Save] fail. *)
Theorem Save_Load_roundtrip (g : Grokker) :
  (json_safe g -> exists j, Save g = Some j /\ Load j = Some g) /\
  (forall j, Save g = Some j -> Load j = Some (coerce_store g)) /\
  ((finite g.(CharsPerToken) = false \/
    exists c f, In c g.(Chunks) /\ In f c.(Embedding) /\ finite f = false) ->
   Save g = None).
Proof.
  split; [|split].
  - intros (Hroot & Hdocs & Hchunks & Hcpt).
    destruct (marshal_chunks_roundtrip _ Hchunks) as (js & Hjs & Hun).
    unfold Save, Marshal. rewrite Hjs. unfold marshal_float. rewrite Hcpt.
    eexists. split; [reflexivity|].
    unfold Load. simpl.
    rewrite (coerce_utf8_valid _ Hroot), (unmarshal_marshal_documents _ Hdocs), Hun.
    destruct g. reflexivity.
  - exact (Load_of_Save g).
  - intros Hnf. unfold Save. apply Marshal_fails_iff. exact Hnf.
Qed.

Lemma Save_Load_roundtrip_witness :
  json_safe store_abc_chunks /\
  (exists j, Save store_abc_chunks = Some j /\ Load j = Some store_abc_chunks) /\
  Save (set_Chunks store_abc_chunks [mkChunk (mkDocument "a.txt") "A" [NaN]]) = None.
Proof.
  assert (Hsafe : json_safe store_abc_chunks).
  { split; [reflexivity|]. split; [repeat constructor|]. split; [|reflexivity].
    repeat constructor. }
  split; [exact Hsafe|]. split.
  - exact (proj1 (Save_Load_roundtrip store_abc_chunks) Hsafe).
  - apply (proj2 (proj2 (Save_Load_roundtrip _))). right.
    exists (mkChunk (mkDocument "a.txt") "A" [NaN]), NaN.
    split; [left; reflexivity|]. split; [left; reflexivity|reflexivity].
Defined.

(** ** Further properties *)


Lemma string_app_assoc (a b c : string) :
  String.append (String.append a b) c = String.append a (String.append b c).
Proof. induction a as [|x a IH]; simpl; [reflexivity | rewrite IH; reflexivity]. Qed.

Lemma string_app_nil_r (a : string) : String.append a EmptyString = a.
Proof. induction a as [|x a IH]; simpl; [reflexivity | rewrite IH; reflexivity]. Qed.

Lemma string_concat_cons (sp x : string) (l : list string) :
  l <> [] -> String.concat sp (x :: l) = String.append x (String.append sp (String.concat sp l)).
Proof. destruct l; [congruence | reflexivity]. Qed.

Lemma string_concat_empty_cons (x : string) (l : list string) :
  String.concat EmptyString (x :: l) = String.append x (String.concat EmptyString l).
Proof. destruct l; simpl; [rewrite string_app_nil_r|]; reflexivity. Qed.

Lemma split_paragraphs_from_not_nil (s cur : string) : split_paragraphs_from s cur <> [].
Proof.
  revert cur. induction s as [|a s IH]; intros cur; simpl; [discriminate|].
  destruct s as [|b s']; [discriminate|].
  destruct (Ascii.eqb a nl && Ascii.eqb b nl); [discriminate | apply IH].
Qed.

(** [strings.Join(strings.Split(s, "\n\n"), "\n\n") == s]. *)
Lemma split_paragraphs_from_join (s cur : string) :
  String.concat sep (split_paragraphs_from s cur) = String.append cur s.
Proof.
  remember (String.length s) as n eqn:Hn. revert s cur Hn.
  induction n as [n IH] using (well_founded_induction lt_wf); intros s cur Hn.
  destruct s as [|a s']; simpl.
  - rewrite string_app_nil_r. reflexivity.
  - destruct s' as [|b s''].
    + reflexivity.
    + destruct (Ascii.eqb a nl && Ascii.eqb b nl) eqn:Hab.
      * apply andb_prop in Hab as [Ha Hb].
        apply Ascii.eqb_eq in Ha, Hb. subst a b.
        rewrite string_concat_cons by apply split_paragraphs_from_not_nil.
        rewrite (IH (String.length s'')) by (subst n; simpl; lia). reflexivity.
      * rewrite (IH (String.length (String b s''))) by (subst n; simpl; lia).
        rewrite string_app_assoc. reflexivity.
Qed.

Lemma split_paragraphs_join (s : string) : String.concat sep (split_paragraphs s) = s.
Proof. apply split_paragraphs_from_join. Qed.

Lemma length_substring_prefix (s : string) (k : nat) :
  (k <= String.length s)%nat -> String.length (substring 0 k s) = k.
Proof.
  revert k. induction s as [|a s IH]; intros k Hk; destruct k; simpl in *; try lia.
  rewrite IH by lia. reflexivity.
Qed.

Lemma length_substring_suffix (s : string) (k m : nat) :
  (String.length s <= k + m)%nat -> String.length (substring k m s) = (String.length s - k)%nat.
Proof.
  revert k. induction s as [|a s IH]; intros k Hk.
  - destruct k, m; reflexivity.
  - destruct k as [|k].
    + rewrite substring_all by exact Hk. simpl. reflexivity.
    + simpl in *. apply IH. lia.
Qed.

Lemma split_paragraph_pieces (fuel : nat) (max : Z) (p : string) :
  0 < max -> (String.length p <= fuel)%nat ->
  exists pieces, split_paragraph fuel max p = Some pieces /\
    String.concat EmptyString pieces = p /\
    Forall (fun x => 0 < Z.of_nat (String.length x) <= max) pieces.
Proof.
  intros Hmax. revert p. induction fuel as [|fuel IH]; intros p Hlen.
  - destruct p; simpl in Hlen; [|lia]. exists []. repeat split. constructor.
  - destruct p as [|a p'].
    + exists []. repeat split. constructor.
    + cbn [split_paragraph]. set (p := String a p') in *.
      destruct (Z.of_nat (String.length p) >? max) eqn:Hgt.
      * assert (Hle : (max <=? 0) = false) by (apply Z.leb_gt; exact Hmax).
        rewrite Hle. apply Z.gtb_lt in Hgt.
        destruct (IH (substring (Z.to_nat max) (String.length p) p)) as (rest & Hr & Hc & Hf).
        { rewrite length_substring_suffix by lia. lia. }
        rewrite Hr. eexists. split; [reflexivity|]. split.
        -- rewrite string_concat_empty_cons, Hc. apply substring_split. lia.
        -- constructor; [|exact Hf].
           rewrite length_substring_prefix by lia. lia.
      * rewrite Z.gtb_ltb, Z.ltb_ge in Hgt. exists [p]. split; [reflexivity|]. split; [reflexivity|].
        constructor; [|constructor]. unfold p in *. simpl in *. lia.
Qed.

Lemma chunk_paragraphs_groups (max : Z) (ps : list string) :
  0 < max ->
  exists groups, chunk_paragraphs max ps = Some (List.concat groups) /\
    map (String.concat EmptyString) groups = ps /\
    Forall (fun x => 0 < Z.of_nat (String.length x) <= max) (List.concat groups).
Proof.
  intros Hmax. induction ps as [|p ps IH].
  - exists []. repeat split. constructor.
  - destruct IH as (groups & Hg & Hmap & Hf).
    destruct (split_paragraph_pieces (String.length p) max p Hmax (Nat.le_refl _))
      as (pieces & Hp & Hc & Hpf).
    exists (pieces :: groups). simpl. rewrite Hp, Hg. split; [reflexivity|].
    split; [rewrite Hc, Hmap; reflexivity|]. apply Forall_app. auto.
Qed.

(** X1: with a positive [MaxChunkSize], [chunkStrings] of a readable file
    succeeds and loses nothing: its segments, grouped by paragraph, give
    back each paragraph of [strings.Split(text, "\n\n")] when joined, and
    the paragraphs joined with
    ["\n\n"] give back the file text; every segment is non-empty and at
    most [MaxChunkSize] bytes long. *)
Theorem chunkStrings_lossless (fs : FS) (g : Grokker) (doc : Document) (txt : string)
    (Hmax : 0 < g.(MaxChunkSize)) (Hread : fs.(readFile) doc.(Path) = Some txt) :
  exists groups,
    chunkStrings fs g doc = Some (List.concat groups) /\
    map (String.concat EmptyString) groups = split_paragraphs txt /\
    String.concat sep (map (String.concat EmptyString) groups) = txt /\
    Forall (fun x => 0 < Z.of_nat (String.length x) <= g.(MaxChunkSize)) (List.concat groups).
Proof.
  destruct (chunk_paragraphs_groups g.(MaxChunkSize) (split_paragraphs txt) Hmax)
    as (groups & Hg & Hmap & Hf).
  exists groups. unfold chunkStrings. rewrite Hread, Hg. split; [reflexivity|].
  split; [exact Hmap|].
  split; [rewrite Hmap; apply split_paragraphs_join | exact Hf].
Qed.

Lemma chunkStrings_lossless_witness :
  0 < store_doc_a.(MaxChunkSize) /\
  (fs_text text_one_two_one).(readFile) (mkDocument "a").(Path) = Some text_one_two_one /\
  exists groups,
    chunkStrings (fs_text text_one_two_one) store_doc_a (mkDocument "a") = Some (List.concat groups) /\
    map (String.concat EmptyString) groups = split_paragraphs text_one_two_one /\
    String.concat sep (map (String.concat EmptyString) groups) = text_one_two_one /\
    Forall (fun x => 0 < Z.of_nat (String.length x) <= store_doc_a.(MaxChunkSize)) (List.concat groups).
Proof.
  split; [reflexivity|]. split; [reflexivity|].
  apply chunkStrings_lossless; reflexivity.
Defined.

Lemma split_paragraph_nonpositive (fuel : nat) (max : Z) (p : string) :
  max <= 0 -> (String.length p <= fuel)%nat ->
  split_paragraph fuel max p = if String.eqb p EmptyString then Some [] else None.
Proof.
  intros Hmax Hlen. destruct p as [|a p']; [destruct fuel; reflexivity|].
  destruct fuel as [|fuel]; [simpl in Hlen; lia|].
  cbn [split_paragraph].
  assert (Hgt : (Z.of_nat (String.length (String a p')) >? max) = true)
    by (apply Z.gtb_lt; simpl; lia).
  assert (Hle : (max <=? 0) = true) by (apply Z.leb_le; exact Hmax).
  rewrite Hgt, Hle. reflexivity.
Qed.

(** X2: with [MaxChunkSize <= 0] the slicing loop of [chunkStrings] cannot
    finish on a non-empty paragraph (with [0] it never ends, below [0] the
    slice bound is out of range): [chunkStrings] yields no segment list
    unless every paragraph of the file is empty, and then it yields none. *)
Theorem chunkStrings_nonpositive_max (fs : FS) (g : Grokker) (doc : Document) (txt : string)
    (Hmax : g.(MaxChunkSize) <= 0) (Hread : fs.(readFile) doc.(Path) = Some txt) :
  chunkStrings fs g doc =
  if forallb (fun p => String.eqb p EmptyString) (split_paragraphs txt) then Some [] else None.
Proof.
  unfold chunkStrings. rewrite Hread.
  induction (split_paragraphs txt) as [|p ps IH]; [reflexivity|].
  simpl. rewrite split_paragraph_nonpositive by (auto; lia).
  destruct (String.eqb p EmptyString); simpl; [|reflexivity].
  rewrite IH. destruct forallb; reflexivity.
Qed.

Lemma chunkStrings_nonpositive_max_witness :
  (mkGrokker EmptyString [] [] 0 (Finite 7 (-1))).(MaxChunkSize) <= 0 /\
  (fs_text "x"%string).(readFile) (mkDocument "a").(Path) = Some "x"%string /\
  chunkStrings (fs_text "x"%string) (mkGrokker EmptyString [] [] 0 (Finite 7 (-1))) (mkDocument "a") =
  if forallb (fun p => String.eqb p EmptyString) (split_paragraphs "x"%string) then Some [] else None.
Proof.
  split; [discriminate|]. split; [reflexivity|].
  apply chunkStrings_nonpositive_max; [discriminate | reflexivity].
Defined.

Lemma create_embeddings_loop_any (client : EmbedClient) :
  forall fuel texts reqs es, (List.length texts <= fuel)%nat ->
  create_embeddings_loop fuel client texts = (reqs, Some es) ->
  List.concat reqs = texts /\
  Forall (fun b => (1 <= List.length b <= 100)%nat) reqs /\
  exists answers, map client reqs = map Some answers /\ es = List.concat answers.
Proof.
  induction fuel as [|fuel IH]; intros texts reqs es Hlen H.
  - destruct texts; [|simpl in Hlen; lia]. simpl in H. injection H as <- <-.
    split; [reflexivity|]. split; [constructor|]. exists []. split; reflexivity.
  - destruct texts as [|t ts] eqn:Et.
    + simpl in H. injection H as <- <-.
      split; [reflexivity|]. split; [constructor|]. exists []. split; reflexivity.
    + rewrite <- Et in H |- *. rewrite create_embeddings_loop_cons in H by (subst; discriminate).
      destruct (client (firstn 100 texts)) as [a|] eqn:Hc; [|discriminate].
      destruct (create_embeddings_loop fuel client (skipn 100 texts)) as [reqs' r] eqn:Hl.
      destruct r as [rest|]; [|discriminate].
      pose proof (f_equal fst H) as H1. pose proof (f_equal snd H) as H2.
      cbn [fst snd] in H1, H2. subst reqs. injection H2 as <-.
      assert (Hrest : (List.length (skipn 100 texts) <= fuel)%nat)
        by (rewrite length_skipn; subst; simpl in *; lia).
      destruct (IH _ _ _ Hrest Hl) as (Hcat & Hsz & answers & Hans & ->).
      pose proof (firstn_skipn 100 texts) as Hfs.
      split; [cbn [List.concat]; rewrite Hcat; exact Hfs|].
      split.
      * constructor; [|exact Hsz].
        cbv beta. rewrite length_firstn, Et. cbn [List.length].
        split; [apply Nat.min_glb; lia | apply Nat.le_min_l].
      * exists (a :: answers). cbn [map List.concat]. rewrite Hc, Hans. split; reflexivity.
Qed.

Lemma CreateEmbeddings_ok (client : EmbedClient) (texts : list string)
    (reqs : list (list string)) (es : list (list float64))
    (Hok : CreateEmbeddings client texts = (reqs, Some es)) :
  List.concat reqs = texts /\
  Forall (fun b => (1 <= List.length b <= 100)%nat) reqs /\
  exists answers, map client reqs = map Some answers /\ es = List.concat answers.
Proof. exact (create_embeddings_loop_any client _ texts reqs es (Nat.le_refl _) Hok). Qed.

(** X3: for any embedding client, a successful [CreateEmbeddings] has sent
    the texts in order in batches of 1 to 100, and returns the client's
    answers concatenated in request order; the number of vectors in an
    answer is not checked against the batch size. *)
Theorem CreateEmbeddings_any_client (client : EmbedClient) (texts : list string)
    (reqs : list (list string)) (es : list (list float64))
    (Hok : CreateEmbeddings client texts = (reqs, Some es)) :
  List.concat reqs = texts /\
  Forall (fun b => (1 <= List.length b <= 100)%nat) reqs /\
  exists answers, map client reqs = map Some answers /\ es = List.concat answers.
Proof. eapply CreateEmbeddings_ok; eassumption. Qed.


Lemma CreateEmbeddings_any_client_witness :
  CreateEmbeddings one_vector_client ["a"; "b"]%string =
    ([["a"; "b"]%string], Some [[Finite 0 0]]) /\
  List.concat [["a"; "b"]%string] = ["a"; "b"]%string /\
  Forall (fun b => (1 <= List.length b <= 100)%nat) [["a"; "b"]%string] /\
  exists answers, map one_vector_client [["a"; "b"]%string] = map Some answers /\
                  [[Finite 0 0]] = List.concat answers.
Proof.
  split; [reflexivity|].
  apply (CreateEmbeddings_any_client one_vector_client ["a"; "b"]%string). reflexivity.
Defined.

Lemma diff_chunks_updated (old : list Chunk) (strs news : list string) (upd : bool)
    old' news' upd' :
  diff_chunks old strs news upd = (old', news', upd') ->
  exists extra, news' = news ++ extra /\ (upd' = true <-> upd = true \/ extra <> []).
Proof.
  revert old news upd. induction strs as [|s strs IH]; intros old news upd Hd.
  - simpl in Hd. injection Hd as _ <- <-. exists []. rewrite app_nil_r.
    split; [reflexivity|]. split; [auto | intros [H|H]; [exact H | congruence]].
  - simpl in Hd. destruct (has_text s old).
    + exact (IH _ _ _ Hd).
    + destruct (IH _ _ _ Hd) as (extra & -> & Hiff).
      exists (s :: extra). rewrite <- app_assoc. split; [reflexivity|].
      split; [intros _; right; discriminate | intros _; apply Hiff; left; reflexivity].
Qed.

Lemma new_chunks_length (doc : Document) (ts : list string) (es : list (list float64))
    (ncs : list Chunk) :
  new_chunks doc ts es = Some ncs -> List.length ncs = List.length ts.
Proof.
  intros H. destruct (new_chunks_spec _ _ _ _ H) as [Ht _].
  rewrite <- Ht. unfold texts. symmetry. apply length_map.
Qed.

Lemma UpdateDocument_ok (client : EmbedClient) (fs : FS) (g g' : Grokker)
    (doc : Document) (reqs : list (list string)) (updated : bool)
    (Hok : UpdateDocument client fs g doc = (reqs, Some (g', updated))) :
  exists ncs,
    g'.(Chunks) = g.(Chunks) ++ ncs /\
    Forall (fun c => c.(ChunkDoc) = doc) ncs /\
    List.concat reqs = map Text ncs /\
    (updated = true <-> ncs <> []) /\
    g'.(Documents) = g.(Documents) /\ g'.(Root) = g.(Root) /\
    g'.(MaxChunkSize) = g.(MaxChunkSize) /\ g'.(CharsPerToken) = g.(CharsPerToken).
Proof.
  destruct (UpdateDocument_shape _ _ _ _ _ _ _ Hok)
    as (cs & old' & news & es & ncs & Hcs & Hd & Hce & Hn & ->).
  destruct (new_chunks_spec _ _ _ _ Hn) as [Htexts Hown].
  destruct (CreateEmbeddings_ok _ _ _ _ Hce) as (Hcat & _).
  destruct (diff_chunks_updated _ _ _ _ _ _ _ Hd) as (extra & Hextra & Hiff).
  exists ncs. split; [reflexivity|]. split; [exact Hown|].
  split; [rewrite Hcat; symmetry; exact Htexts|].
  split; [|repeat split].
  simpl in Hextra. subst news. rewrite Hiff.
  pose proof (new_chunks_length _ _ _ _ Hn) as Hlen.
  split.
  - intros [H|H]; [discriminate|]. intros ->. destruct extra; [congruence | discriminate].
  - intros H. right. intros ->. destruct ncs; [congruence | discriminate].
Qed.

(** X4: a successful [UpdateDocument] only appends chunks: the old chunk
    list, stale chunks of [doc] included, is a prefix of the new one; the
    added chunks belong to [doc], their texts are exactly what was sent to
    the embedding client, and [updated] is [true] exactly when at least one
    chunk was added.  The document list and the configuration are
    unchanged. *)
Theorem UpdateDocument_appends (client : EmbedClient) (fs : FS) (g g' : Grokker)
    (doc : Document) (reqs : list (list string)) (updated : bool)
    (Hok : UpdateDocument client fs g doc = (reqs, Some (g', updated))) :
  exists ncs,
    g'.(Chunks) = g.(Chunks) ++ ncs /\
    Forall (fun c => c.(ChunkDoc) = doc) ncs /\
    List.concat reqs = map Text ncs /\
    (updated = true <-> ncs <> []) /\
    g'.(Documents) = g.(Documents) /\ g'.(Root) = g.(Root) /\
    g'.(MaxChunkSize) = g.(MaxChunkSize) /\ g'.(CharsPerToken) = g.(CharsPerToken).
Proof. eapply UpdateDocument_ok; eassumption. Qed.

Lemma UpdateDocument_appends_witness :
  UpdateDocument length_client (fs_text text_one_two_one) store_doc_a (mkDocument "a") =
    ([["one"; "two"; "one"]%string], Some (store_one_two_one, true)) /\
  exists ncs,
    store_one_two_one.(Chunks) = store_doc_a.(Chunks) ++ ncs /\
    Forall (fun c => c.(ChunkDoc) = mkDocument "a") ncs /\
    List.concat [["one"; "two"; "one"]%string] = map Text ncs /\
    (true = true <-> ncs <> []) /\
    store_one_two_one.(Documents) = store_doc_a.(Documents) /\
    store_one_two_one.(Root) = store_doc_a.(Root) /\
    store_one_two_one.(MaxChunkSize) = store_doc_a.(MaxChunkSize) /\
    store_one_two_one.(CharsPerToken) = store_doc_a.(CharsPerToken).
Proof.
  split; [vm_compute; reflexivity|].
  apply (UpdateDocument_appends length_client (fs_text text_one_two_one)).
  vm_compute. reflexivity.
Defined.

(** *** Document paths *)


Lemma UpdateDocument_Documents (client : EmbedClient) (fs : FS) (g g' : Grokker)
    (doc : Document) (reqs : list (list string)) (upd : bool) :
  UpdateDocument client fs g doc = (reqs, Some (g', upd)) ->
  g'.(Documents) = g.(Documents) /\ exists ncs, g'.(Chunks) = g.(Chunks) ++ ncs.
Proof.
  intros H. destruct (UpdateDocument_shape _ _ _ _ _ _ _ H)
    as (cs & old' & news & es & ncs & _ & _ & _ & _ & ->).
  split; [reflexivity | exists ncs; reflexivity].
Qed.

Lemma existsb_path_In (path : string) (ds : list Document) :
  existsb (fun d => String.eqb d.(Path) path) ds = true <-> In path (map Path ds).
Proof.
  rewrite existsb_exists, in_map_iff. split.
  - intros (d & Hd & He). apply String.eqb_eq in He. exists d. auto.
  - intros (d & He & Hd). exists d. split; [exact Hd | apply String.eqb_eq; exact He].
Qed.

Lemma AddDocument_ok (client : EmbedClient) (fs : FS) (g : Grokker) (path : string) :
  let '(g', ok) := AddDocument client fs g path in
  g'.(Documents) =
    (if existsb (fun d => String.eqb d.(Path) path) g.(Documents) then g.(Documents)
     else g.(Documents) ++ [mkDocument path]) /\
  In path (map Path g'.(Documents)) /\
  (ok = false -> g'.(Chunks) = g.(Chunks)) /\
  (exists ncs, g'.(Chunks) = g.(Chunks) ++ ncs).
Proof.
  unfold AddDocument.
  set (found := existsb (fun d => String.eqb d.(Path) path) g.(Documents)).
  set (g1 := if found then g else set_Documents g (g.(Documents) ++ [mkDocument path])).
  assert (Hg1 : g1.(Documents) = (if found then g.(Documents)
                                  else g.(Documents) ++ [mkDocument path]) /\
                g1.(Chunks) = g.(Chunks))
    by (unfold g1; destruct found; split; reflexivity).
  destruct Hg1 as [Hd1 Hc1].
  assert (Hin : In path (map Path g1.(Documents))).
  { rewrite Hd1. destruct found eqn:Hf.
    - apply existsb_path_In. exact Hf.
    - rewrite map_app. apply in_or_app. right. left. reflexivity. }
  destruct (UpdateDocument client fs g1 (mkDocument path)) as [reqs r] eqn:Hu.
  destruct r as [[g2 upd]|]; simpl.
  - destruct (UpdateDocument_Documents _ _ _ _ _ _ _ Hu) as [Hd2 [ncs Hc2]].
    rewrite Hd2. split; [exact Hd1|]. split; [exact Hin|].
    split; [discriminate|]. exists ncs. rewrite Hc2, Hc1. reflexivity.
  - split; [exact Hd1|]. split; [exact Hin|].
    split; [intros _; exact Hc1|]. exists []. rewrite app_nil_r. exact Hc1.
Qed.

(** X5: whether or not building its chunks succeeds, after
    [AddDocument(path)] the path is listed exactly as before when it was
    already there, and appended at the end otherwise; when the update
    fails, no chunk has been added, so a new path stays listed without
    chunks. *)
Theorem AddDocument_lists_path (client : EmbedClient) (fs : FS) (g : Grokker) (path : string) :
  let '(g', ok) := AddDocument client fs g path in
  g'.(Documents) =
    (if existsb (fun d => String.eqb d.(Path) path) g.(Documents) then g.(Documents)
     else g.(Documents) ++ [mkDocument path]) /\
  In path (map Path g'.(Documents)) /\
  (ok = false -> g'.(Chunks) = g.(Chunks)) /\
  (exists ncs, g'.(Chunks) = g.(Chunks) ++ ncs).
Proof. apply AddDocument_ok. Qed.

Lemma RemoveDocument_unique (g : Grokker) (doc : Document) :
  paths_unique g ->
  (RemoveDocument g doc).(Documents) =
  filter (fun d => negb (String.eqb d.(Path) doc.(Path))) g.(Documents).
Proof.
  intros Hu. destruct (RemoveDocument_Documents g doc) as [[Hall ->] | (pre & d & post & Hds & Hd & Hpre & ->)].
  - symmetry. apply forallb_filter_id. apply forallb_forall. intros x Hx.
    rewrite Forall_forall in Hall. apply negb_true_iff, String.eqb_neq. exact (Hall x Hx).
  - unfold paths_unique in Hu. rewrite Hds in Hu |- *.
    rewrite map_app in Hu. cbn [map] in Hu. apply NoDup_remove_2 in Hu.
    rewrite filter_app. cbn [filter]. rewrite Hd, String.eqb_refl. simpl.
    rewrite !forallb_filter_id; [reflexivity | |].
    + apply forallb_forall. intros x Hx. apply negb_true_iff, String.eqb_neq.
      intros He. apply Hu. apply in_or_app. right. rewrite Hd, <- He. apply in_map. exact Hx.
    + apply forallb_forall. intros x Hx. apply negb_true_iff, String.eqb_neq.
      rewrite Forall_forall in Hpre. exact (Hpre x Hx).
Qed.

(** X6: when the document paths are distinct, [RemoveDocument(doc)] leaves
    exactly the documents whose path differs from [doc]'s, in their order. *)
Theorem RemoveDocument_removes_path (g : Grokker) (doc : Document)
    (Hunique : paths_unique g) :
  (RemoveDocument g doc).(Documents) =
  filter (fun d => negb (String.eqb d.(Path) doc.(Path))) g.(Documents).
Proof. exact (RemoveDocument_unique g doc Hunique). Qed.

Lemma RemoveDocument_removes_path_witness :
  paths_unique store_abc /\
  (RemoveDocument store_abc (mkDocument "b.txt")).(Documents) =
  filter (fun d => negb (String.eqb d.(Path) (mkDocument "b.txt").(Path))) store_abc.(Documents).
Proof.
  assert (Hu : paths_unique store_abc)
    by (unfold paths_unique; vm_compute; repeat constructor; simpl; intuition discriminate).
  split; [exact Hu|]. exact (RemoveDocument_removes_path store_abc (mkDocument "b.txt") Hu).
Defined.

Lemma run_op_paths_unique (client : EmbedClient) (fs : FS) (g : Grokker) (op : StoreOp) :
  paths_unique g -> paths_unique (run_op client fs g op).
Proof.
  unfold paths_unique. intros Hu. destruct op as [path | doc | doc |]; simpl.
  - pose proof (AddDocument_ok client fs g path) as H.
    destruct (AddDocument client fs g path) as [g' ok]. simpl.
    destruct H as [Hd _]. rewrite Hd.
    destruct (existsb (fun d => String.eqb d.(Path) path) g.(Documents)) eqn:Hf; [exact Hu|].
    rewrite map_app. simpl. apply NoDup_app; [exact Hu | repeat constructor; simpl; tauto |].
    intros a Ha [<- | []]. assert (Hc : existsb (fun d => String.eqb d.(Path) path) g.(Documents) = true)
      by (apply existsb_path_In; exact Ha).
    congruence.
  - destruct (UpdateDocument client fs g doc) as [reqs r] eqn:Hup.
    destruct r as [[g' upd]|]; simpl; [|exact Hu].
    destruct (UpdateDocument_Documents _ _ _ _ _ _ _ Hup) as [-> _]. exact Hu.
  - rewrite (RemoveDocument_unique g doc Hu). apply NoDup_map_filter. exact Hu.
  - exact Hu.
Qed.

(** X7: every sequence of [AddDocument], [UpdateDocument],
    [RemoveDocument] and [GC] keeps the document paths distinct; in
    particular every store built from [New()] by these operations has
    distinct paths. *)
Theorem store_ops_keep_paths_unique (client : EmbedClient) (fs : FS) (g : Grokker)
    (ops : list StoreOp) (Hunique : paths_unique g) :
  paths_unique (run_ops client fs g ops).
Proof.
  unfold run_ops. revert g Hunique.
  induction ops as [|op ops IH]; intros g Hu; [exact Hu|].
  simpl. apply IH. apply run_op_paths_unique. exact Hu.
Qed.

Lemma store_ops_keep_paths_unique_witness :
  paths_unique New /\
  paths_unique (run_ops length_client (fs_text "x"%string) New
                  [OpAddDocument "a"; OpAddDocument "b"; OpAddDocument "a";
                   OpRemoveDocument (mkDocument "a"); OpAddDocument "a"; OpGC]).
Proof.
  assert (Hu : paths_unique New) by constructor.
  split; [exact Hu|]. apply store_ops_keep_paths_unique. exact Hu.
Defined.

(** *** RefreshEmbeddings *)

Lemma covered_noop (client : EmbedClient) (fs : FS) (g : Grokker) (doc : Document) :
  doc_covered fs g doc -> UpdateDocument client fs g doc = ([], Some (g, false)).
Proof.
  intros (cs & Hcs & Hcov). unfold UpdateDocument. rewrite Hcs.
  destruct (diff_chunks_covered (doc_chunks (Path doc) (Chunks g)) cs [] false Hcov)
    as [old' ->].
  simpl. rewrite app_nil_r. destruct g. reflexivity.
Qed.

Lemma UpdateDocument_covers (client : EmbedClient) (fs : FS) (g g' : Grokker)
    (doc : Document) (reqs : list (list string)) (upd : bool) :
  UpdateDocument client fs g doc = (reqs, Some (g', upd)) -> doc_covered fs g' doc.
Proof.
  intros H. destruct (UpdateDocument_shape _ _ _ _ _ _ _ H)
    as (cs & old' & news & es & ncs & Hcs & Hd & _ & Hn & ->).
  destruct (new_chunks_spec _ _ _ _ Hn) as [Htexts Hown].
  exists cs. split.
  - rewrite (chunkStrings_MaxChunkSize fs g) by apply MaxChunkSize_set_Chunks. exact Hcs.
  - intros t. pose proof (diff_chunks_count _ _ _ _ _ _ _ t Hd) as Hc.
    rewrite Chunks_set_Chunks, doc_chunks_app, (doc_chunks_own doc ncs Hown), map_app.
    change (map Text ncs) with (texts ncs). rewrite Htexts.
    unfold count_text, texts in *. rewrite count_occ_app. simpl in Hc. lia.
Qed.

Lemma covered_append (fs : FS) (g g' : Grokker) (doc : Document) (extra : list Chunk) :
  doc_covered fs g doc -> g'.(MaxChunkSize) = g.(MaxChunkSize) ->
  g'.(Chunks) = g.(Chunks) ++ extra -> doc_covered fs g' doc.
Proof.
  intros (cs & Hcs & Hcov) Hm Hc. exists cs. split.
  - rewrite (chunkStrings_MaxChunkSize fs g g' doc Hm). exact Hcs.
  - intros t. rewrite Hc, doc_chunks_app, map_app, count_occ_app.
    specialize (Hcov t). lia.
Qed.

Lemma doc_chunks_filter_referenced (ds : list Document) (p : string) (cs : list Chunk) :
  In p (map Path ds) -> doc_chunks p (filter (referenced ds) cs) = doc_chunks p cs.
Proof.
  intros Hp. unfold doc_chunks. induction cs as [|c cs IH]; [reflexivity|].
  simpl. destruct (String.eqb c.(ChunkDoc).(Path) p) eqn:Hc.
  - assert (Hr : referenced ds c = true).
    { unfold referenced. apply existsb_path_In. apply String.eqb_eq in Hc. rewrite Hc. exact Hp. }
    rewrite Hr. cbn [filter]. rewrite Hc, IH. reflexivity.
  - destruct (referenced ds c); simpl; [rewrite Hc|]; exact IH.
Qed.

Lemma refresh_loop_ok (client : EmbedClient) (fs : FS) :
  forall docs g g' reqs, refresh_loop client fs docs g = (reqs, Some g') ->
  (forall d, In d docs -> doc_covered fs g' d) /\
  g'.(Documents) = g.(Documents) /\ g'.(Root) = g.(Root) /\
  g'.(MaxChunkSize) = g.(MaxChunkSize) /\ g'.(CharsPerToken) = g.(CharsPerToken) /\
  exists extra, g'.(Chunks) = g.(Chunks) ++ extra.
Proof.
  induction docs as [|doc docs IH]; intros g g' reqs H.
  - simpl in H. injection H as _ <-.
    split; [intros d []|]. repeat split. exists []. rewrite app_nil_r. reflexivity.
  - simpl in H.
    destruct (UpdateDocument client fs g doc) as [reqs1 r] eqn:Hu.
    destruct r as [[g1 upd]|]; [|discriminate].
    destruct (refresh_loop client fs docs g1) as [reqs2 r2] eqn:Hl.
    injection H as _ ->.
    destruct (IH _ _ _ Hl) as (Hcov & Hd & Hr & Hm & Hc & extra & He).
    destruct (UpdateDocument_ok _ _ _ _ _ _ _ Hu)
      as (ncs & Hc1 & _ & _ & _ & Hd1 & Hr1 & Hm1 & Hcpt1).
    split.
    + intros d [<- | Hin]; [|exact (Hcov d Hin)].
      apply (covered_append fs g1 g' doc extra); auto.
      exact (UpdateDocument_covers _ _ _ _ _ _ _ Hu).
    + rewrite Hd, Hr, Hm, Hc, Hd1, Hr1, Hm1, Hcpt1. repeat split.
      exists (ncs ++ extra). rewrite He, Hc1, app_assoc. reflexivity.
Qed.

Lemma refresh_loop_covered (client : EmbedClient) (fs : FS) :
  forall docs g, (forall d, In d docs -> doc_covered fs g d) ->
  refresh_loop client fs docs g = ([], Some g).
Proof.
  induction docs as [|doc docs IH]; intros g Hcov; [reflexivity|].
  simpl. rewrite (covered_noop client fs g doc (Hcov doc (or_introl eq_refl))).
  rewrite IH by (intros d Hd; apply Hcov; right; exact Hd). reflexivity.
Qed.

Lemma filter_idem {A : Type} (f : A -> bool) (l : list A) : filter f (filter f l) = filter f l.
Proof.
  induction l as [|x l IH]; [reflexivity|].
  simpl. destruct (f x) eqn:Hx; simpl; [rewrite Hx, IH|]; [reflexivity | exact IH].
Qed.

Lemma GC_idempotent (g : Grokker) : GC (GC g) = GC g.
Proof.
  unfold GC at 1.
  change (Chunks (GC g)) with (filter (referenced (Documents g)) (Chunks g)).
  change (Documents (GC g)) with (Documents g). rewrite filter_idem. reflexivity.
Qed.

(** X8: [RefreshEmbeddings] is idempotent: once it has succeeded, running it
    again on the same files sends no embedding request and leaves the
    store unchanged. *)
Theorem RefreshEmbeddings_idempotent (client : EmbedClient) (fs : FS) (g g1 : Grokker)
    (reqs : list (list string))
    (Hok : RefreshEmbeddings client fs g = (reqs, Some g1)) :
  RefreshEmbeddings client fs g1 = ([], Some g1).
Proof.
  unfold RefreshEmbeddings in Hok.
  destruct (refresh_loop client fs g.(Documents) g) as [reqs0 r] eqn:Hl.
  destruct r as [g0|]; [|discriminate]. injection Hok as _ <-.
  destruct (refresh_loop_ok _ _ _ _ _ _ Hl) as (Hcov & Hd & _ & _ & _ & _).
  unfold RefreshEmbeddings.
  rewrite refresh_loop_covered.
  - rewrite GC_idempotent. reflexivity.
  - intros d Hin. change (Documents (GC g0)) with (Documents g0) in Hin.
    rewrite Hd in Hin. destruct (Hcov d Hin) as (cs & Hcs & Hc).
    exists cs. split; [exact Hcs|].
    unfold GC. rewrite Chunks_set_Chunks, doc_chunks_filter_referenced; [exact Hc|].
    rewrite Hd. apply in_map. exact Hin.
Qed.

Lemma RefreshEmbeddings_idempotent_witness :
  RefreshEmbeddings length_client (fs_text text_one_two_one) store_doc_a =
    ([["one"; "two"; "one"]%string], Some store_one_two_one) /\
  RefreshEmbeddings length_client (fs_text text_one_two_one) store_one_two_one =
    ([], Some store_one_two_one).
Proof.
  split; [vm_compute; reflexivity|].
  apply (RefreshEmbeddings_idempotent length_client (fs_text text_one_two_one) store_doc_a
           store_one_two_one [["one"; "two"; "one"]%string]).
  vm_compute. reflexivity.
Defined.

(** X9: a successful [RefreshEmbeddings] keeps the document list and the
    configuration, keeps every chunk whose document is listed (including
    chunks whose text the file no longer has), adds only chunks of listed
    documents, and leaves no chunk of an unlisted document. *)
Theorem RefreshEmbeddings_chunks (client : EmbedClient) (fs : FS) (g g1 : Grokker)
    (reqs : list (list string))
    (Hok : RefreshEmbeddings client fs g = (reqs, Some g1)) :
  g1.(Documents) = g.(Documents) /\ g1.(Root) = g.(Root) /\
  g1.(MaxChunkSize) = g.(MaxChunkSize) /\ g1.(CharsPerToken) = g.(CharsPerToken) /\
  (forall c, In c g.(Chunks) -> In c.(ChunkDoc).(Path) (map Path g.(Documents)) ->
             In c g1.(Chunks)) /\
  (forall c, In c g1.(Chunks) -> In c.(ChunkDoc).(Path) (map Path g.(Documents))).
Proof.
  unfold RefreshEmbeddings in Hok.
  destruct (refresh_loop client fs g.(Documents) g) as [reqs0 r] eqn:Hl.
  destruct r as [g0|]; [|discriminate]. injection Hok as _ <-.
  destruct (refresh_loop_ok _ _ _ _ _ _ Hl) as (_ & Hd & Hr & Hm & Hc & extra & He).
  unfold GC. cbn [Documents Root MaxChunkSize CharsPerToken set_Chunks Chunks].
  rewrite Hd, Hr, Hm, Hc, He. repeat split.
  - intros c Hin Hp. apply filter_In. split; [apply in_or_app; left; exact Hin|].
    unfold referenced. apply existsb_path_In. exact Hp.
  - intros c Hin. apply filter_In in Hin as [_ Href].
    unfold referenced in Href. apply existsb_path_In. exact Href.
Qed.

Lemma RefreshEmbeddings_chunks_witness :
  RefreshEmbeddings length_client (fs_text text_one_two_one) store_doc_a =
    ([["one"; "two"; "one"]%string], Some store_one_two_one) /\
  store_one_two_one.(Documents) = store_doc_a.(Documents) /\
  store_one_two_one.(Root) = store_doc_a.(Root) /\
  store_one_two_one.(MaxChunkSize) = store_doc_a.(MaxChunkSize) /\
  store_one_two_one.(CharsPerToken) = store_doc_a.(CharsPerToken) /\
  (forall c, In c store_doc_a.(Chunks) -> In c.(ChunkDoc).(Path) (map Path store_doc_a.(Documents)) ->
             In c store_one_two_one.(Chunks)) /\
  (forall c, In c store_one_two_one.(Chunks) ->
             In c.(ChunkDoc).(Path) (map Path store_doc_a.(Documents))).
Proof.
  assert (H : RefreshEmbeddings length_client (fs_text text_one_two_one) store_doc_a =
              ([["one"; "two"; "one"]%string], Some store_one_two_one))
    by (vm_compute; reflexivity).
  split; [exact H|]. exact (RefreshEmbeddings_chunks _ _ _ _ _ H).
Defined.

(** *** SimilarChunks and FindChunks *)

(** X10: [SimilarChunks] returns all chunks for [K = 0], no chunk for a
    negative [K], and otherwise [min(K, number of chunks)] chunks. *)
Theorem SimilarChunks_length (sort_Slice : SortSlice)
    (Similarity : list float64 -> list float64 -> Z) (g : Grokker)
    (embedding : list float64) (K : Z) (Hsort : SortSliceContract sort_Slice) :
  List.length (SimilarChunks sort_Slice Similarity g embedding K) =
  (if K =? 0 then List.length g.(Chunks) else Nat.min (Z.to_nat K) (List.length g.(Chunks))).
Proof.
  unfold SimilarChunks.
  destruct (Hsort Sim sim_score
              (map (fun c => mkSim c (Similarity embedding c.(Embedding))) g.(Chunks)))
    as [Hperm _].
  apply Permutation_length in Hperm. rewrite length_map in Hperm.
  rewrite length_map, length_firstn, Hperm.
  destruct (K =? 0).
  - rewrite Nat2Z.id. apply Nat.min_id.
  - reflexivity.
Qed.

Lemma SimilarChunks_length_witness :
  SortSliceContract insertion_sort /\
  List.length (SimilarChunks insertion_sort first_value_score store_4000x3 [] (-1)) =
  (if (-1) =? 0 then List.length store_4000x3.(Chunks)
   else Nat.min (Z.to_nat (-1)) (List.length store_4000x3.(Chunks))).
Proof.
  split; [exact insertion_sort_contract|].
  apply SimilarChunks_length. exact insertion_sort_contract.
Defined.

(** X11: [FindChunks(query, K)] sends exactly one embedding request, holding
    the query alone; it fails when the client fails or answers no vector,
    and otherwise ranks the chunks against the first vector of the answer. *)
Theorem FindChunks_single_request (sort_Slice : SortSlice)
    (Similarity : list float64 -> list float64 -> Z) (client : EmbedClient)
    (g : Grokker) (query : string) (K : Z) :
  fst (FindChunks sort_Slice Similarity client g query K) = [[query]] /\
  snd (FindChunks sort_Slice Similarity client g query K) =
  match client [query] with
  | Some (e :: _) => Some (SimilarChunks sort_Slice Similarity g e K)
  | _ => None
  end.
Proof.
  unfold FindChunks, CreateEmbeddings. simpl.
  destruct (client [query]) as [[|e es]|]; simpl; split; reflexivity.
Qed.

(** [Answer] ranks the chunks with [FindChunks(question, 0)]. *)
Lemma Answer_FindChunks (sort_Slice : SortSlice)
    (Similarity : list float64 -> list float64 -> Z)
    (client : EmbedClient) (chat : ChatClient) (g : Grokker)
    (question : string) (global : bool) :
  Answer sort_Slice Similarity client chat g question global =
  match snd (FindChunks sort_Slice Similarity client g question 0) with
  | Some chunks => Generate chat question (assemble_context (answer_maxSize g) EmptyString chunks) global
  | None => None
  end.
Proof.
  unfold Answer, FindChunks. destruct (CreateEmbeddings client [question]) as [reqs [[|e es]|]]; reflexivity.
Qed.

(** *** Context assembly *)


Lemma promptTmpl_length : String.length promptTmpl = 36%nat.
Proof. reflexivity. Qed.

Lemma context_prefix_succ (k : nat) (c : Chunk) (rest : list Chunk) :
  context_prefix (S k) (c :: rest) = String.append (String.append c.(Text) sep) (context_prefix k rest).
Proof. unfold context_prefix. simpl firstn. cbn [map]. apply string_concat_empty_cons. Qed.

Lemma context_prefix_zero (chunks : list Chunk) : context_prefix 0 chunks = EmptyString.
Proof. reflexivity. Qed.

Lemma assemble_context_general (maxSize : Z) :
  forall chunks ctx, exists k,
    assemble_context maxSize ctx chunks = String.append ctx (context_prefix k chunks) /\
    (k <= List.length chunks)%nat /\ (chunks <> [] -> (1 <= k)%nat) /\
    (forall j, (1 <= j < k)%nat -> context_fits maxSize (String.append ctx (context_prefix j chunks))) /\
    ((k < List.length chunks)%nat -> ~ context_fits maxSize (String.append ctx (context_prefix k chunks))).
Proof.
  induction chunks as [|c rest IH]; intros ctx.
  - exists 0%nat. simpl. rewrite context_prefix_zero, string_app_nil_r.
    repeat split; [lia | congruence | lia | lia].
  - simpl assemble_context.
    set (ctx' := String.append ctx (String.append c.(Text) sep)).
    assert (Hone : String.append ctx (context_prefix 1 (c :: rest)) = ctx').
    { rewrite context_prefix_succ, context_prefix_zero, string_app_nil_r. reflexivity. }
    destruct (Z.of_nat (String.length ctx') + 36 >? maxSize) eqn:Hgt.
    + exists 1%nat. rewrite Hone. split; [reflexivity|]. simpl List.length.
      repeat split; try lia.
      intros _. unfold context_fits. rewrite promptTmpl_length. apply Z.gtb_lt in Hgt. lia.
    + destruct (IH ctx') as (k & Hr & Hk & Hne & Hfit & Hover).
      exists (S k). split.
      * rewrite Hr, context_prefix_succ. unfold ctx'. rewrite string_app_assoc. reflexivity.
      * simpl List.length. split; [lia|]. split; [lia|]. split.
        -- intros j Hj. destruct j as [|[|j']]; [lia| |].
           ++ rewrite Hone. unfold context_fits. rewrite promptTmpl_length. rewrite Z.gtb_ltb, Z.ltb_ge in Hgt. lia.
           ++ rewrite context_prefix_succ, <- string_app_assoc. apply Hfit.
              split; [lia|]. lia.
        -- intros Hlt. rewrite context_prefix_succ, <- string_app_assoc. apply Hover. lia.
Qed.

(** X12: the context [Answer] builds is the first [k] ranked chunks, each
    followed by ["\n\n"]: at least one chunk when there is one, every
    shorter non-empty prefix fitting the budget with the template, and,
    when chunks are left out, the [k]-chunk context exceeding it.  Only the
    last chunk taken can make the context overflow. *)
Theorem assemble_context_prefix (maxSize : Z) (chunks : list Chunk) :
  exists k,
    assemble_context maxSize EmptyString chunks = context_prefix k chunks /\
    (k <= List.length chunks)%nat /\ (chunks <> [] -> (1 <= k)%nat) /\
    (forall j, (1 <= j < k)%nat -> context_fits maxSize (context_prefix j chunks)) /\
    ((k < List.length chunks)%nat -> ~ context_fits maxSize (context_prefix k chunks)).
Proof. exact (assemble_context_general maxSize chunks EmptyString). Qed.

(** *** Save and Load: failures and coercion *)







(** X13: [json.Marshal(g)], the first step of [Save], fails (so [Save]
    panics in [Ck] before writing anything) exactly when [CharsPerToken] or
    some value of some chunk's embedding is not a finite float. *)
Theorem Marshal_fails_iff_nonfinite (g : Grokker) :
  Marshal g = None <->
  finite g.(CharsPerToken) = false \/
  exists c f, In c g.(Chunks) /\ In f c.(Embedding) /\ finite f = false.
Proof. exact (Marshal_fails_iff g). Qed.




(** X14: whatever [Save] writes, [Load] reads back the same store with every
    string (root, document paths, chunk texts) coerced to valid UTF-8. *)
Theorem Save_Load_coerce (g : Grokker) (j : json) (Hsave : Save g = Some j) :
  Load j = Some (coerce_store g).
Proof. exact (Load_of_Save g j Hsave). Qed.

Lemma Save_Load_coerce_witness :
  Save store_invalid_text = Some (match Save store_invalid_text with Some j => j | None => JNull end) /\
  Load (match Save store_invalid_text with Some j => j | None => JNull end) = Some (coerce_store store_invalid_text).
Proof.
  split; [vm_compute; reflexivity|].
  apply Save_Load_coerce. vm_compute. reflexivity.
Defined.

Lemma byte_at_len (s : string) (i b : nat) : byte_at s i = Some b -> (i < String.length s)%nat.
Proof.
  unfold byte_at. revert i. induction s as [|a s IH]; intros i; [discriminate|].
  destruct i as [|i]; simpl; [lia|]. intros H. specialize (IH i H). lia.
Qed.

Lemma rune_len_bound (s : string) (k : nat) :
  utf8_rune_len s = Some k -> (1 <= k <= String.length s)%nat.
Proof.
  intros H. unfold utf8_rune_len, cont_in in H.
  destruct (byte_at s 0) as [b0|] eqn:B0; [|discriminate].
  destruct (byte_at s 1) as [b1|] eqn:B1; destruct (byte_at s 2) as [b2|] eqn:B2;
  destruct (byte_at s 3) as [b3|] eqn:B3; cbv zeta in H; rewrite ?andb_false_r in H;
  repeat match type of H with context [if ?c then _ else _] => destruct c end;
  try discriminate; injection H as <-;
  repeat match goal with B : byte_at s _ = Some _ |- _ => apply byte_at_len in B end; lia.
Qed.

Lemma rune_len_frame (s s' : string) (k : nat) :
  utf8_rune_len s = Some k ->
  (forall i, (i < k)%nat -> byte_at s' i = byte_at s i) ->
  utf8_rune_len s' = Some k.
Proof.
  intros H Heq. pose proof (rune_len_bound _ _ H) as Hb.
  unfold utf8_rune_len, cont_in in *. cbv zeta in *.
  rewrite (Heq 0%nat) by lia.
  destruct (byte_at s 0) as [b0|]; [|discriminate].
  revert H.
  repeat match goal with |- context [if Nat.ltb b0 ?n then _ else _] => destruct (Nat.ltb b0 n) end;
  intros H; try discriminate;
  repeat match type of H with (if ?c then _ else _) = _ => destruct c eqn:?; [|discriminate] end;
  injection H as <-;
  rewrite ?(Heq 1%nat), ?(Heq 2%nat), ?(Heq 3%nat) by lia;
  repeat match goal with E : _ = true |- _ => rewrite E end; reflexivity.
Qed.

Lemma byte_at_app (x t : string) (i : nat) :
  (i < String.length x)%nat -> byte_at (String.append x t) i = byte_at x i.
Proof. intros H. unfold byte_at. rewrite <- append_correct1 by exact H. reflexivity. Qed.

Lemma byte_at_prefix (s : string) (k i : nat) :
  (i < k)%nat -> byte_at (substring 0 k s) i = byte_at s i.
Proof. intros H. unfold byte_at. rewrite substring_correct1 by exact H. rewrite Nat.add_0_r. reflexivity. Qed.

Lemma rune_len_replacement (t : string) :
  utf8_rune_len (String.append replacement_char t) = Some 3%nat.
Proof. reflexivity. Qed.

Lemma length_string_app (x u : string) :
  String.length (String.append x u) = (String.length x + String.length u)%nat.
Proof. induction x as [|a x IH]; simpl; [reflexivity|]. rewrite IH. reflexivity. Qed.

Lemma str_drop_app (x u : string) : str_drop (String.length x) (String.append x u) = u.
Proof.
  unfold str_drop.
  assert (H : forall m, substring (String.length x) m (String.append x u) = substring 0 m u).
  { induction x as [|a x IH]; intros m; [reflexivity|]. simpl. apply IH. }
  rewrite H. apply substring_all. rewrite length_string_app. lia.
Qed.


Lemma length_str_drop (k : nat) (s : string) :
  String.length (str_drop k s) = (String.length s - k)%nat.
Proof. unfold str_drop. apply length_substring_suffix. lia. Qed.

Lemma valid_utf8_fuel_empty (f : nat) : valid_utf8_fuel f EmptyString = true.
Proof. destruct f; reflexivity. Qed.

Lemma coerce_utf8_fuel_output_valid (f : nat) (s : string) :
  (String.length s <= f)%nat ->
  forall f', (String.length (coerce_utf8_fuel f s) <= f')%nat ->
  valid_utf8_fuel f' (coerce_utf8_fuel f s) = true.
Proof.
  revert s. induction f as [|f IH]; intros s Hs f' Hf'.
  - destruct s; [apply valid_utf8_fuel_empty|simpl in Hs; lia].
  - destruct s as [|a rest]; [apply valid_utf8_fuel_empty|].
    cbn [coerce_utf8_fuel] in *. revert Hf'.
    destruct (utf8_rune_len (String a rest)) as [k|] eqn:Hk; intros Hf'.
    + pose proof (rune_len_bound _ _ Hk) as Hb.
      assert (Hpre : String.length (substring 0 k (String a rest)) = k)
        by (rewrite length_substring_prefix; lia).
      set (out := String.append (substring 0 k (String a rest)) (coerce_utf8_fuel f (str_drop k (String a rest)))) in *.
      assert (Hlen : String.length out = (k + String.length (coerce_utf8_fuel f (str_drop k (String a rest))))%nat)
        by (unfold out; rewrite length_string_app, Hpre; reflexivity).
      assert (Hrl : utf8_rune_len out = Some k).
      { apply (rune_len_frame (String a rest)); [exact Hk|].
        intros i Hi. unfold out. rewrite byte_at_app by lia. apply byte_at_prefix. exact Hi. }
      destruct f' as [|f'']; [lia|].
      destruct out as [|b o] eqn:Ho; [simpl in Hlen; lia|].
      cbn [valid_utf8_fuel]. rewrite <- Ho in Hrl |- *. rewrite Hrl.
      assert (Hd : str_drop k out = coerce_utf8_fuel f (str_drop k (String a rest))).
      { unfold out. rewrite <- Hpre at 1. apply str_drop_app. }
      rewrite Hd. apply IH.
      * rewrite length_str_drop. cbn [String.length] in Hs, Hb |- *. lia.
      * lia.
    + rewrite length_string_app in Hf'. simpl in Hf'.
      destruct f' as [|f'']; [lia|].
      change (valid_utf8_fuel (S f'') (String.append replacement_char (coerce_utf8_fuel f rest)) = true).
      cbn [valid_utf8_fuel replacement_char String.append].
      change (String (ascii_of_nat 239) (String (ascii_of_nat 191) (String (ascii_of_nat 189) (coerce_utf8_fuel f rest))))
        with (String.append replacement_char (coerce_utf8_fuel f rest)).
      rewrite rune_len_replacement.
      change 3%nat with (String.length replacement_char). rewrite str_drop_app.
      apply IH; simpl in Hs; lia.
Qed.

Lemma coerce_utf8_idempotent (s : string) : coerce_utf8 (coerce_utf8 s) = coerce_utf8 s.
Proof.
  apply coerce_utf8_valid. unfold valid_utf8, coerce_utf8.
  apply coerce_utf8_fuel_output_valid; lia.
Qed.

Lemma marshal_document_coerce (d : Document) :
  marshal_document (coerce_document d) = marshal_document d.
Proof. unfold marshal_document, coerce_document. cbn [Path]. rewrite coerce_utf8_idempotent. reflexivity. Qed.

Lemma marshal_chunks_coerce (cs : list Chunk) :
  marshal_chunks (map coerce_chunk cs) = marshal_chunks cs.
Proof.
  rewrite !marshal_chunks_spec.
  assert (He : forallb (fun c => forallb finite (Embedding c)) (map coerce_chunk cs) =
               forallb (fun c => forallb finite (Embedding c)) cs).
  { induction cs as [|c cs IH]; [reflexivity|]. simpl. rewrite IH. reflexivity. }
  rewrite He. destruct (forallb _ cs); [|reflexivity]. f_equal.
  rewrite map_map. apply map_ext. intros c. unfold coerce_chunk. cbn [ChunkDoc Text Embedding].
  rewrite marshal_document_coerce, coerce_utf8_idempotent. reflexivity.
Qed.

(** X15: saving a store that was just loaded from a save writes the same data
    again: after one [Save] and [Load], the store is a fixed point of the
    round trip. *)
Theorem Save_Load_Save_stable (g g' : Grokker) (j : json)
  (Hsave : Save g = Some j) (Hload : Load j = Some g') :
  Save g' = Some j.
Proof.
  rewrite (Load_of_Save g j Hsave) in Hload. injection Hload as <-.
  rewrite <- Hsave. unfold Save, Marshal, coerce_store. cbn [Root Documents Chunks MaxChunkSize CharsPerToken].
  rewrite marshal_chunks_coerce, coerce_utf8_idempotent, map_map.
  rewrite (map_ext _ _ marshal_document_coerce). reflexivity.
Qed.

Lemma Save_Load_Save_stable_witness :
  let j := match Save store_invalid_text with Some j => j | None => JNull end in
  Save store_invalid_text = Some j /\ Load j = Some (coerce_store store_invalid_text) /\
  Save (coerce_store store_invalid_text) = Some j.
Proof.
  intros j. assert (Hs : Save store_invalid_text = Some j) by (vm_compute; reflexivity).
  assert (Hl : Load j = Some (coerce_store store_invalid_text)) by (vm_compute; reflexivity).
  split; [exact Hs|]. split; [exact Hl|].
  exact (Save_Load_Save_stable store_invalid_text (coerce_store store_invalid_text) j Hs Hl).
Defined.

(** *** UpdateEmbeddings *)

Lemma skipn_app_length {A : Type} (pre l : list A) (k : nat) :
  skipn (List.length pre + k) (pre ++ l) = skipn k l.
Proof. induction pre as [|a pre IH]; [reflexivity|]. exact IH. Qed.

Lemma slice_delete_mid {A : Type} (pre post rest : list A) (x : A) :
  slice_delete (pre ++ x :: post ++ rest) (List.length pre + S (List.length post)) (List.length pre)
  = pre ++ post ++ skipn (List.length post) (x :: post) ++ rest.
Proof.
  unfold slice_delete. rewrite firstn_app_length.
  replace (List.length pre + S (List.length post) - S (List.length pre))%nat with (List.length post) by lia.
  replace (S (List.length pre)) with (List.length pre + 1)%nat by lia.
  rewrite skipn_app_length. cbn [skipn]. rewrite firstn_app_length.
  replace (List.length pre + S (List.length post) - 1)%nat with (List.length pre + List.length post)%nat by lia.
  rewrite skipn_app_length. change (x :: post ++ rest) with ((x :: post) ++ rest).
  rewrite skipn_app. replace (List.length post - List.length (x :: post))%nat with O by (simpl; lia).
  reflexivity.
Qed.

Lemma RemoveDocument_slice_view (arr : list Document) (n : nat) (doc : Document) :
  (n <= List.length arr)%nat ->
  let '(arr', n') := RemoveDocument_slice arr n doc in
  (n' <= List.length arr')%nat /\ incl (firstn n' arr') (firstn n arr).
Proof.
  intros Hn. unfold RemoveDocument_slice.
  pose proof (find_path_index_spec doc.(Path) (firstn n arr)) as Hspec.
  destruct (find_path_index doc.(Path) (firstn n arr)) as [i|].
  - destruct Hspec as (pre & d & post & Hf & <- & _ & _).
    assert (Hlen : n = (List.length pre + S (List.length post))%nat).
    { rewrite <- (firstn_length_le arr Hn), Hf, length_app. reflexivity. }
    assert (Harr : arr = pre ++ d :: post ++ skipn n arr).
    { rewrite <- (firstn_skipn n arr) at 1. rewrite Hf, <- app_assoc. reflexivity. }
    rewrite Hf. set (rest := skipn n arr) in Harr. rewrite Harr, Hlen, slice_delete_mid.
    replace (List.length pre + S (List.length post) - 1)%nat with (List.length (pre ++ post)) by (rewrite length_app; lia).
    rewrite app_assoc, firstn_app_length.
    split.
    + rewrite !length_app. lia.
    + intros a Ha. rewrite in_app_iff in *. simpl. tauto.
  - split; [exact Hn | apply incl_refl].
Qed.

Lemma grokker_ext (g g' : Grokker) :
  g'.(Root) = g.(Root) -> g'.(Documents) = g.(Documents) -> g'.(Chunks) = g.(Chunks) ->
  g'.(MaxChunkSize) = g.(MaxChunkSize) -> g'.(CharsPerToken) = g.(CharsPerToken) -> g' = g.
Proof. destruct g, g'; simpl; intros; subst; reflexivity. Qed.

Lemma update_loop_ok (fuel : nat) (client : EmbedClient) (fs : FS) (lastUpdate : Z)
    (arr : list Document) (n i : nat) (g : Grokker) (upd : bool) (g' : Grokker) (upd' : bool) :
  update_loop fuel client fs lastUpdate arr n i g upd = (g', upd', true) ->
  g.(Documents) = firstn n arr -> (n <= List.length arr)%nat ->
  incl g'.(Documents) g.(Documents) /\ g'.(Root) = g.(Root) /\
  g'.(MaxChunkSize) = g.(MaxChunkSize) /\ g'.(CharsPerToken) = g.(CharsPerToken) /\
  (upd' = false -> upd = false /\ g' = g).
Proof.
  revert arr n i g upd. induction fuel as [|fuel IH]; intros arr n i g upd Hl Hd Hn.
  - injection Hl as <- <-. repeat split; auto using incl_refl.
  - cbn [update_loop] in Hl.
    destruct (nth_error arr i) as [doc|]; [|injection Hl as <- <-; repeat split; auto using incl_refl].
    destruct (stat fs (Path doc)) as [| |t].
    + pose proof (RemoveDocument_slice_view arr n doc Hn) as Hv.
      destruct (RemoveDocument_slice arr n doc) as [arr' n'].
      destruct Hv as [Hn' Hincl].
      destruct (IH _ _ _ _ _ Hl eq_refl Hn') as (Hi & Hr & Hm & Hc & Hu).
      cbn [Documents Root MaxChunkSize CharsPerToken set_Documents] in *.
      split; [|split; [|split; [|split]]]; auto.
      * rewrite Hd. intros a Ha. apply Hincl, Hi, Ha.
      * intros Hf. destruct (Hu Hf) as [Ht _]. discriminate.
    + discriminate.
    + destruct (t >? lastUpdate).
      * destruct (UpdateDocument client fs g doc) as [reqs [[g1 updated]|]] eqn:Hud; [|discriminate].
        cbn [snd] in Hl.
        destruct (UpdateDocument_ok _ _ _ _ _ _ _ Hud)
          as (ncs & Hch & _ & _ & Hiff & Hd1 & Hr1 & Hm1 & Hc1).
        destruct (IH _ _ _ _ _ Hl (eq_trans Hd1 Hd) Hn) as (Hi & Hr & Hm & Hc & Hu).
        rewrite Hd1 in Hi. rewrite Hr1 in Hr. rewrite Hm1 in Hm. rewrite Hc1 in Hc.
        split; [|split; [|split; [|split]]]; auto.
        intros Hf. destruct (Hu Hf) as [Hor ->].
        apply orb_false_iff in Hor. destruct Hor as [-> Hupd]. split; [reflexivity|].
        apply grokker_ext; auto.
        rewrite Hch. destruct ncs; [apply app_nil_r|].
        exfalso. rewrite Hupd in Hiff. assert (false = true) by (apply Hiff; discriminate). discriminate.
      * exact (IH _ _ _ _ _ Hl Hd Hn).
Qed.

(** X16: when [UpdateEmbeddings] succeeds, it has added no document (every
    document listed after is one listed before), it keeps the root and the
    configuration, every chunk left belongs to a listed document, and when
    it reports [update = false] the only change to the store is [GC]. *)
Theorem UpdateEmbeddings_ok (client : EmbedClient) (fs : FS) (grokfn : string)
    (g g' : Grokker) (update : bool)
    (Hok : UpdateEmbeddings client fs grokfn g = (g', update, true)) :
  incl g'.(Documents) g.(Documents) /\ g'.(Root) = g.(Root) /\
  g'.(MaxChunkSize) = g.(MaxChunkSize) /\ g'.(CharsPerToken) = g.(CharsPerToken) /\
  Forall (fun c => referenced g'.(Documents) c = true) g'.(Chunks) /\
  (update = false -> g' = GC g).
Proof.
  unfold UpdateEmbeddings in Hok.
  destruct (stat fs grokfn) as [| |lastUpdate]; [discriminate|discriminate|].
  destruct (update_loop _ _ _ _ _ _ _ _ _) as [[g1 u] ok] eqn:Hl.
  destruct ok; [|discriminate]. injection Hok as <- <-.
  destruct (update_loop_ok _ _ _ _ _ _ _ _ _ _ _ Hl (eq_sym (firstn_all _)) (le_n _))
    as (Hi & Hr & Hm & Hc & Hu).
  unfold GC. cbn [Documents Root MaxChunkSize CharsPerToken Chunks set_Chunks].
  split; [exact Hi|]. split; [exact Hr|]. split; [exact Hm|]. split; [exact Hc|]. split.
  - apply Forall_forall. intros c Hc'. apply filter_In in Hc'. apply Hc'.
  - intros Hf. destruct (Hu Hf) as [_ ->]. reflexivity.
Qed.

Lemma UpdateEmbeddings_ok_witness :
  UpdateEmbeddings length_client (fs_text text_one_two_one) "grok" store_abc_chunks =
    (GC store_abc_chunks, false, true) /\
  (incl (GC store_abc_chunks).(Documents) store_abc_chunks.(Documents) /\
   (GC store_abc_chunks).(Root) = store_abc_chunks.(Root) /\
   (GC store_abc_chunks).(MaxChunkSize) = store_abc_chunks.(MaxChunkSize) /\
   (GC store_abc_chunks).(CharsPerToken) = store_abc_chunks.(CharsPerToken) /\
   Forall (fun c => referenced (GC store_abc_chunks).(Documents) c = true) (GC store_abc_chunks).(Chunks) /\
   (false = false -> GC store_abc_chunks = GC store_abc_chunks)).
Proof.
  split; [vm_compute; reflexivity|].
  apply (UpdateEmbeddings_ok length_client (fs_text text_one_two_one) "grok").
  vm_compute. reflexivity.
Defined.

(** *** aidda: extractHeaders *)


Lemma extract_headers_loop_fails (TrimSpace : string -> string) (hs : list string) :
  forall m cur,
  extract_headers_loop TrimSpace hs m cur = None <->
  exists pre c post, hs = pre ++ c :: post /\ c <> EmptyString /\ is_continuation c = true /\
                     last_key TrimSpace cur pre = EmptyString.
Proof.
  induction hs as [|h hs IH]; intros m cur.
  - split; [discriminate|]. intros (pre & c & post & H & _). destruct pre; discriminate.
  - assert (Htail : forall cur', (header_kv TrimSpace h = None /\ cur' = cur) \/ (exists k v, header_kv TrimSpace h = Some (k, v) /\ cur' = k) ->
       (exists pre c post, hs = pre ++ c :: post /\ c <> EmptyString /\ is_continuation c = true /\
                     last_key TrimSpace cur' pre = EmptyString) ->
       (exists pre c post, h :: hs = pre ++ c :: post /\ c <> EmptyString /\ is_continuation c = true /\
                     last_key TrimSpace cur pre = EmptyString)).
    { intros cur' Hh (pre & c & post & -> & Hc & Hcont & Hk).
      exists (h :: pre), c, post. split; [reflexivity|]. split; [exact Hc|]. split; [exact Hcont|].
      cbn [last_key]. destruct Hh as [[-> ->] | (k & v & -> & ->)]; exact Hk. }
    cbn [extract_headers_loop].
    destruct (String.eqb_spec h EmptyString) as [Hh|Hh].
    + rewrite IH. split.
      * apply Htail with (cur' := cur). left. unfold header_kv. rewrite Hh. split; reflexivity.
      * intros ([|h' pre] & c & post & He & Hc & Hcont & Hk); injection He as -> He.
        -- congruence.
        -- exists pre, c, post. repeat split; auto. cbn [last_key] in Hk.
           unfold header_kv in Hk. rewrite Hh in Hk. exact Hk.
    + destruct (is_continuation h) eqn:Hcont.
      * destruct (String.eqb_spec cur EmptyString) as [Hcur|Hcur].
        -- split; [intros _|reflexivity]. exists [], h, hs. auto.
        -- rewrite IH. split.
           ++ apply Htail. left. unfold header_kv.
              rewrite (proj2 (String.eqb_neq _ _) Hh), Hcont. split; reflexivity.
           ++ intros ([|h' pre] & c & post & He & Hc & Hc' & Hk); injection He as -> He.
              ** cbn [last_key] in Hk. congruence.
              ** exists pre, c, post. repeat split; auto. cbn [last_key] in Hk.
                 unfold header_kv in Hk. rewrite (proj2 (String.eqb_neq _ _) Hh), Hcont in Hk. exact Hk.
      * assert (Hkv : header_kv TrimSpace h =
                      match split_colon h with Some (k0, v0) => Some (TrimSpace k0, TrimSpace v0) | None => None end).
        { unfold header_kv. rewrite (proj2 (String.eqb_neq _ _) Hh), Hcont. reflexivity. }
        destruct (split_colon h) as [[k0 v0]|].
        -- rewrite IH. split.
           ++ apply Htail. right. exists (TrimSpace k0), (TrimSpace v0). auto.
           ++ intros ([|h' pre] & c & post & He & Hc & Hc' & Hk); injection He as -> He.
              ** congruence.
              ** exists pre, c, post. repeat split; auto. cbn [last_key] in Hk. rewrite Hkv in Hk. exact Hk.
        -- rewrite IH. split.
           ++ apply Htail. left. split; [exact Hkv | reflexivity].
           ++ intros ([|h' pre] & c & post & He & Hc & Hc' & Hk); injection He as -> He.
              ** congruence.
              ** exists pre, c, post. repeat split; auto. cbn [last_key] in Hk. rewrite Hkv in Hk. exact Hk.
Qed.

(** X17: [extractHeaders] fails exactly when some non-empty continuation line
    (starting with a space or a tab) has no header to continue: no header
    line comes before it, or the last one before it has an empty name
    after trimming. *)
Theorem extractHeaders_fails_iff (TrimSpace : string -> string) (headers : list string) :
  extractHeaders TrimSpace headers = None <->
  exists pre c post, headers = pre ++ c :: post /\ c <> EmptyString /\ is_continuation c = true /\
                     last_key TrimSpace EmptyString pre = EmptyString.
Proof. apply extract_headers_loop_fails. Qed.

Lemma extract_headers_loop_values (TrimSpace : string -> string) (hs : list string) :
  Forall (fun h => is_continuation h = false) hs ->
  forall m cur, exists m',
    extract_headers_loop TrimSpace hs m cur = Some m' /\
    forall k, map_lookup m' k =
      match last_header_value TrimSpace k hs with Some v => Some v | None => map_lookup m k end.
Proof.
  induction 1 as [|h hs Hh _ IH]; intros m cur.
  - exists m. split; reflexivity.
  - cbn [extract_headers_loop last_header_value].
    unfold header_kv. rewrite Hh.
    destruct (String.eqb h EmptyString).
    + destruct (IH m cur) as (m' & Hl & Hv). exists m'. split; [exact Hl|].
      intros k. rewrite Hv. destruct (last_header_value TrimSpace k hs); reflexivity.
    + destruct (split_colon h) as [[k0 v0]|].
      * destruct (IH (map_set m (TrimSpace k0) (TrimSpace v0)) (TrimSpace k0)) as (m' & Hl & Hv).
        exists m'. split; [exact Hl|]. intros k. rewrite Hv.
        destruct (last_header_value TrimSpace k hs); [reflexivity|].
        unfold map_lookup, map_set. cbn [find fst snd].
        destruct (String.eqb (TrimSpace k0) k); reflexivity.
      * destruct (IH m cur) as (m' & Hl & Hv). exists m'. split; [exact Hl|].
        intros k. rewrite Hv. destruct (last_header_value TrimSpace k hs); reflexivity.
Qed.

(** X18: on lines with no continuation line, [extractHeaders] succeeds and
    maps each name to the value of the LAST header line with that name
    (a later line overrides an earlier one); a name with no header line is
    absent. *)
Theorem extractHeaders_last_wins (TrimSpace : string -> string) (headers : list string)
    (Hnc : Forall (fun h => is_continuation h = false) headers) :
  exists m, extractHeaders TrimSpace headers = Some m /\
            forall k, map_lookup m k = last_header_value TrimSpace k headers.
Proof.
  destruct (extract_headers_loop_values TrimSpace headers Hnc [] EmptyString) as (m & Hl & Hv).
  exists m. split; [exact Hl|]. intros k. rewrite Hv.
  destruct (last_header_value TrimSpace k headers); reflexivity.
Qed.


Lemma extractHeaders_last_wins_witness :
  Forall (fun h => is_continuation h = false) headers_in_twice /\
  exists m, extractHeaders trim_ascii headers_in_twice = Some m /\
            forall k, map_lookup m k = last_header_value trim_ascii k headers_in_twice.
Proof.
  assert (H : Forall (fun h => is_continuation h = false) headers_in_twice)
    by (repeat constructor).
  split; [exact H|]. exact (extractHeaders_last_wins trim_ascii headers_in_twice H).
Defined.
